(** * CppCommon: calendar time conversion and the read/write lock

    A shallow embedding of [time/time.cpp] (class [Time], [UtcTime],
    [LocalTime]) and of [threads/rw_lock.cpp] (class [RWLock], POSIX
    build), with the properties of the written specification stated and
    settled over it.

    Integers of the C++ code are [Z]; every place where the machine
    arithmetic wraps is written out with [u64] (the value of an unsigned
    64-bit expression) or [to_time_t] (the conversion to [time_t]).
    Exceptions are values of [Exception], carried by [Res]. *)

From Stdlib Require Import ZArith List String Bool Lia Arith.
From Stdlib Require Import DecimalString.
Import ListNotations.
Local Open Scope string_scope.
Local Open Scope Z_scope.

(** ** Errors ([errors/exceptions.h]) *)

(** The two exception classes thrown by the sources.  [SystemException]
    carries its message and, when the thrower passes one, the native
    error code. *)
Inductive Exception : Type :=
| SystemException (message : string) (code : option Z)
| ArgumentException (message : string).

(** Outcome of a call that either returns or throws ([throwex]). *)
Inductive Res (A : Type) : Type :=
| Ok (a : A)
| Throw (e : Exception).
Arguments Ok {A} a.
Arguments Throw {A} e.

Definition res_bind {A B : Type} (r : Res A) (k : A -> Res B) : Res B :=
  match r with
  | Ok a => k a
  | Throw e => Throw e
  end.

(** ** Machine integers *)

(** Value of an expression of type [uint64_t] / [unsigned long long]. *)
Definition u64 (x : Z) : Z := x mod 2 ^ 64.

(** Conversion of an integer to a signed type of [8 * size] bits. *)
Definition to_signed (size : Z) (x : Z) : Z :=
  let m := 2 ^ (8 * size) in
  let r := x mod m in
  if r <? m / 2 then r else r - m.

(** [std::to_string] of an unsigned value. *)
Definition to_string (x : Z) : string :=
  NilZero.string_of_uint (N.to_uint (Z.to_N x)).

(** ** Timestamp ([time/timestamp.h]) *)

Module Timestamp.

(** Modelled from the spec: the class [Timestamp] of [time/timestamp.h],
    which is not among the sources.  Section 3 gives it as an opaque 64-bit
    unsigned nanosecond count. *)
Record t : Type := Make { total : Z }.

(** Modelled from the spec: the accessor [seconds()], the whole seconds of
    the count (section 4.3, "split the timestamp into whole seconds and a
    sub-second remainder"). *)
Definition seconds (ts : t) : Z := total ts / 1000000000.

(** Modelled from the spec: the accessor [milliseconds()], the whole
    milliseconds of the count. *)
Definition milliseconds (ts : t) : Z := total ts / 1000000.

(** Modelled from the spec: the accessor [microseconds()], the whole
    microseconds of the count. *)
Definition microseconds (ts : t) : Z := total ts / 1000.

(** Modelled from the spec: the accessor [nanoseconds()], the count. *)
Definition nanoseconds (ts : t) : Z := total ts.

(** Modelled from the spec: [operator+(const Timestamp&, const Timespan&)],
    a [Timespan] being its nanosecond count; the unchecked unsigned 64-bit
    addition that sections 4.2 and 9 attribute to the reference
    behaviour. *)
Definition add (ts : t) (timespan : Z) : t := Make (u64 (total ts + timespan)).

(** Modelled from the spec: [operator<] on timestamps, the order of their
    counts (section 4.2). *)
Definition ltb (a b : t) : bool := total a <? total b.

(** The invariant of the type: the count is a [uint64_t]. *)
Definition wf (ts : t) : Prop := 0 <= total ts < 2 ^ 64.

End Timestamp.

(** ** The platform calendar calls ([<time.h>]) *)

(** The fields of [struct tm] that the sources read or write. *)
Record tm : Type := mk_tm {
  tm_sec : Z;
  tm_min : Z;
  tm_hour : Z;
  tm_mday : Z;
  tm_mon : Z;
  tm_year : Z;
  tm_isdst : Z
}.

(** The C library the sources are compiled against: the width of [time_t]
    and the four conversions.  [gmtime_r] and [localtime_r] return [None]
    when the call reports failure ([gmtime_r(&time, &result) != &result]). *)
Record Libc : Type := mk_libc {
  sizeof_time_t : Z;
  timegm : tm -> Z;
  mktime : tm -> Z;
  gmtime_r : Z -> option tm;
  localtime_r : Z -> option tm
}.

(** Conversion of a value to [time_t]. *)
Definition to_time_t (L : Libc) (x : Z) : Z := to_signed (sizeof_time_t L) x.

(** ** Calendar time ([time/time.cpp]) *)

Record Time : Type := mk_time {
  _year : Z;
  _month : Z;
  _day : Z;
  _hour : Z;
  _minute : Z;
  _second : Z;
  _millisecond : Z;
  _microsecond : Z;
  _nanosecond : Z
}.

(** The nine assignments that end each of the three decomposing
    constructors.  [%] on [int] truncates ([Z.rem]); the three sub-second
    remainders are taken on [uint64_t] values. *)
Definition fields_of (result : tm) (timestamp : Timestamp.t) : Time :=
  {| _year := tm_year result + 1900;
     _month := tm_mon result + 1;
     _day := tm_mday result;
     _hour := tm_hour result;
     _minute := tm_min result;
     _second := Z.rem (tm_sec result) 60;
     _millisecond := Timestamp.milliseconds timestamp mod 1000;
     _microsecond := Timestamp.microseconds timestamp mod 1000;
     _nanosecond := Timestamp.nanoseconds timestamp mod 1000 |}.

(** [Time::Time(const Timestamp&)] *)
Definition Time_of_timestamp (L : Libc) (timestamp : Timestamp.t) : Res Time :=
  let time := to_time_t L (Timestamp.seconds timestamp) in
  match gmtime_r L time with
  | None =>
      Throw (SystemException
               ("Cannot convert the given timestamp ("
                  ++ to_string (Timestamp.total timestamp)
                  ++ ") to date & time structure!")%string None)
  | Some result => Ok (fields_of result timestamp)
  end.

(** A range check of the field constructor: [if (bad) throwex
    ArgumentException(message);]. *)
Definition reject_if (bad : bool) (message : string) : Res unit :=
  if bad then Throw (ArgumentException message) else Ok tt.

Notation "c ;; k" := (res_bind c (fun _ => k))
  (at level 61, right associativity, only parsing).

(** [Time::Time(int year, int month, ..., int nanosecond)] *)
Definition Time_of_fields (L : Libc)
    (year month day hour minute second millisecond microsecond nanosecond : Z)
    : Res Time :=
  (if sizeof_time_t L =? 4 then
     reject_if ((year <? 1970) || (year >? 2038))
       "Year value is limited in range from 1970 to 2038!"
   else
     reject_if ((year <? 1970) || (year >? 3000))
       "Year value is limited in range from 1970 to 3000!") ;;
  reject_if ((month <? 1) || (month >? 12))
    "Month value is limited in range from 1 to 12!" ;;
  reject_if ((day <? 1) || (day >? 31))
    "Day value is limited in range from 1 to 31!" ;;
  reject_if ((hour <? 0) || (hour >? 23))
    "Hour value is limited in range from 0 to 23!" ;;
  reject_if ((minute <? 0) || (minute >? 59))
    "Minute value is limited in range from 0 to 59!" ;;
  reject_if ((second <? 0) || (second >? 59))
    "Second value is limited in range from 0 to 59!" ;;
  reject_if ((millisecond <? 0) || (millisecond >? 999))
    "Millisecond value is limited in range from 0 to 999!" ;;
  reject_if ((microsecond <? 0) || (microsecond >? 999))
    "Microsecond value is limited in range from 0 to 999!" ;;
  reject_if ((nanosecond <? 0) || (nanosecond >? 999))
    "Nanosecond value is limited in range from 0 to 999!" ;;
  Ok {| _year := year; _month := month; _day := day;
        _hour := hour; _minute := minute; _second := second;
        _millisecond := millisecond; _microsecond := microsecond;
        _nanosecond := nanosecond |}.

(** The [struct tm] that [utcstamp] and [localstamp] fill in. *)
Definition tm_of (t : Time) : tm :=
  {| tm_year := _year t - 1900;
     tm_mon := _month t - 1;
     tm_mday := _day t;
     tm_hour := _hour t;
     tm_min := _minute t;
     tm_sec := _second t;
     tm_isdst := -1 |}.

(** The expression that [utcstamp] and [localstamp] return,
    [time * 1000000000ull + _millisecond * 1000000ull + _microsecond * 1000ull + _nanosecond]:
    every operand is converted to [unsigned long long] and every operation
    is taken modulo [2 ^ 64]. *)
Definition stamp_value (time : Z) (t : Time) : Z :=
  u64 (u64 (u64 (u64 (u64 time * 1000000000)
                 + u64 (u64 (_millisecond t) * 1000000))
            + u64 (u64 (_microsecond t) * 1000))
       + u64 (_nanosecond t)).

(** [Time::utcstamp] *)
Definition utcstamp (L : Libc) (t : Time) : Res Timestamp.t :=
  let time := timegm L (tm_of t) in
  if time =? -1 then
    Throw (SystemException "Cannot convert date & time to UTC timestamp!" None)
  else Ok (Timestamp.Make (stamp_value time t)).

(** [Time::localstamp] *)
Definition localstamp (L : Libc) (t : Time) : Res Timestamp.t :=
  let time := mktime L (tm_of t) in
  if time =? -1 then
    Throw (SystemException "Cannot convert date & time to local timestamp!" None)
  else Ok (Timestamp.Make (stamp_value time t)).

(** [UtcTime::UtcTime(const Timestamp&)] *)
Definition UtcTime (L : Libc) (timestamp : Timestamp.t) : Res Time :=
  let time := to_time_t L (Timestamp.seconds timestamp) in
  match gmtime_r L time with
  | None =>
      Throw (SystemException
               ("Cannot convert the given timestamp ("
                  ++ to_string (Timestamp.total timestamp)
                  ++ ") to UTC date & time structure!")%string None)
  | Some result => Ok (fields_of result timestamp)
  end.

(** [LocalTime::LocalTime(const Timestamp&)] *)
Definition LocalTime (L : Libc) (timestamp : Timestamp.t) : Res Time :=
  let time := to_time_t L (Timestamp.seconds timestamp) in
  match localtime_r L time with
  | None =>
      Throw (SystemException
               ("Cannot convert the given timestamp ("
                  ++ to_string (Timestamp.total timestamp)
                  ++ ") to local date & time structure!")%string None)
  | Some result => Ok (fields_of result timestamp)
  end.

(** ** A POSIX C library with a fixed-offset time zone

    The conversions of [<time.h>] on a platform with a 64-bit [time_t]:
    the proleptic Gregorian calendar with days of 86400 seconds (POSIX
    "seconds since the Epoch"), and a local time zone that is a constant
    number of seconds east of UTC. *)

Module Posix.

Definition is_leap (y : Z) : bool :=
  (y mod 4 =? 0) && (negb (y mod 100 =? 0) || (y mod 400 =? 0)).

Definition days_in_month (y m : Z) : Z :=
  if m =? 2 then (if is_leap y then 29 else 28)
  else if (m =? 4) || (m =? 6) || (m =? 9) || (m =? 11) then 30
  else 31.

(** Days from 1970-01-01 to day [d] of month [m] (1..12) of year [y];
    years are counted from 1 March in eras of 400 years. *)
Definition days_from_civil (y m d : Z) : Z :=
  let y' := if m <=? 2 then y - 1 else y in
  let era := y' / 400 in
  let yoe := y' mod 400 in
  let mp := if m <=? 2 then m + 9 else m - 3 in
  let doy := (153 * mp + 2) / 5 + d - 1 in
  let doe := yoe * 365 + yoe / 4 - yoe / 100 + doy in
  era * 146097 + doe - 719468.

(** The date, as (year, month, day), that lies [z] days after 1970-01-01. *)
Definition civil_from_days (z : Z) : Z * Z * Z :=
  let z' := z + 719468 in
  let era := z' / 146097 in
  let doe := z' mod 146097 in
  let yoe := (doe - doe / 1460 + doe / 36524 - doe / 146096) / 365 in
  let doy := doe - (365 * yoe + yoe / 4 - yoe / 100) in
  let mp := (5 * doy + 2) / 153 in
  let d := doy - (153 * mp + 2) / 5 + 1 in
  let m := if mp <? 10 then mp + 3 else mp - 9 in
  let y := yoe + era * 400 in
  (if m <=? 2 then y + 1 else y, m, d).

(** Day of the year that starts on 1 March, from month and day. *)
Definition day_of_year (m d : Z) : Z :=
  (153 * (if m <=? 2 then m + 9 else m - 3) + 2) / 5 + d - 1.

(** [timegm]: out-of-range fields are carried into the next unit, so the
    31st of a 30-day month is the 1st of the following one. *)
Definition timegm (r : tm) : Z :=
  let year := tm_year r + 1900 + tm_mon r / 12 in
  let month := tm_mon r mod 12 + 1 in
  days_from_civil year month (tm_mday r) * 86400
  + tm_hour r * 3600 + tm_min r * 60 + tm_sec r.

(** [gmtime_r]: fails when the year does not fit [int]. *)
Definition gmtime_r (time : Z) : option tm :=
  let days := time / 86400 in
  let rem := time mod 86400 in
  let '(y, m, d) := civil_from_days days in
  if (- 2 ^ 31 <=? y - 1900) && (y - 1900 <? 2 ^ 31) then
    Some {| tm_sec := rem mod 60;
            tm_min := rem / 60 mod 60;
            tm_hour := rem / 3600;
            tm_mday := d;
            tm_mon := m - 1;
            tm_year := y - 1900;
            tm_isdst := 0 |}
  else None.

(** The library in a zone [utc_offset] seconds east of UTC. *)
Definition libc (utc_offset : Z) : Libc :=
  mk_libc 8
    timegm
    (fun r => timegm r - utc_offset)
    gmtime_r
    (fun time => gmtime_r (time + utc_offset)).

End Posix.

(** ** The read/write lock ([threads/rw_lock.cpp], POSIX build) *)

Module RWLock.

(** The calls a thread makes to its environment, with what they return. *)
Inductive Event : Type :=
| EvNanoTimestamp (reading : Z)
| EvNanoTimestampFails
| EvTryRdLock (result : Z)
| EvTryWrLock (result : Z)
| EvYield.

(** What one thread observes of its environment: the successive readings of
    the monotonic clock and the successive results of the native try-lock
    calls, both indexed by the number of calls made so far, and the calls
    already made, most recent first.  [clock_failure i] is [None] when the
    platform counter is available at the clock read number [i], and
    otherwise the message and the error code of the [SystemException] that
    the read fails with. *)
Record World : Type := mk_world {
  clock : nat -> Z;
  clock_failure : nat -> option (string * option Z);
  native : nat -> Z;
  clock_reads : nat;
  native_calls : nat;
  trace : list Event
}.

(** A computation on the world returns a value, throws, or is still in its
    loop when the iteration bound given to it is used up ([None]). *)
Definition M (A : Type) : Type := World -> option (Res A) * World.

Definition ret {A : Type} (a : A) : M A := fun w => (Some (Ok a), w).

Definition throwex {A : Type} (e : Exception) : M A :=
  fun w => (Some (Throw e), w).

Definition spinning {A : Type} : M A := fun w => (None, w).

Definition bind {A B : Type} (m : M A) (k : A -> M B) : M B :=
  fun w =>
    match m w with
    | (Some (Ok a), w') => k a w'
    | (Some (Throw e), w') => (Some (Throw e), w')
    | (None, w') => (None, w')
    end.

Notation "x <- m ;;; k" := (bind m (fun x => k))
  (at level 61, m at next level, right associativity).
Notation "m ;;; k" := (bind m (fun _ => k))
  (at level 61, right associativity).

(** Modelled from the spec: [NanoTimestamp()], the monotonic clock of
    section 4.1 read as a [Timestamp] ([time/timestamp.h] is not among the
    sources).  The read returns the nanosecond count, or "fails with a
    SystemError if the platform counter is unavailable". *)
Definition NanoTimestamp : M Timestamp.t :=
  fun w =>
    match clock_failure w (clock_reads w) with
    | Some (message, code) =>
        (Some (Throw (SystemException message code)),
         mk_world (clock w) (clock_failure w) (native w)
           (S (clock_reads w)) (native_calls w)
           (EvNanoTimestampFails :: trace w))
    | None =>
        let reading := clock w (clock_reads w) in
        (Some (Ok (Timestamp.Make reading)),
         mk_world (clock w) (clock_failure w) (native w)
           (S (clock_reads w)) (native_calls w)
           (EvNanoTimestamp reading :: trace w))
    end.

(** [pthread_rwlock_tryrdlock(&_rwlock)] *)
Definition pthread_rwlock_tryrdlock : M Z :=
  fun w =>
    let result := native w (native_calls w) in
    (Some (Ok result),
     mk_world (clock w) (clock_failure w) (native w)
       (clock_reads w) (S (native_calls w))
       (EvTryRdLock result :: trace w)).

(** [pthread_rwlock_trywrlock(&_rwlock)] *)
Definition pthread_rwlock_trywrlock : M Z :=
  fun w =>
    let result := native w (native_calls w) in
    (Some (Ok result),
     mk_world (clock w) (clock_failure w) (native w)
       (clock_reads w) (S (native_calls w))
       (EvTryWrLock result :: trace w)).

(** Modelled from the spec: [Thread::Yield()], the capability "yield the
    current execution slice" of section 6 ([threads/thread.h] is not among
    the sources). *)
Definition Thread_Yield : M unit :=
  fun w =>
    (Some (Ok tt),
     mk_world (clock w) (clock_failure w) (native w)
       (clock_reads w) (native_calls w)
       (EvYield :: trace w)).

Section Errno.

(** The value of [EBUSY] in the platform's [<errno.h>]. *)
Variable EBUSY : Z.

(** [RWLock::Impl::TryLockRead] *)
Definition Impl_TryLockRead : M bool :=
  result <- pthread_rwlock_tryrdlock ;;;
  if negb (result =? 0) && negb (result =? EBUSY) then
    throwex (SystemException "Failed to try lock for read!" (Some result))
  else ret (result =? 0).

(** [RWLock::Impl::TryLockWrite] *)
Definition Impl_TryLockWrite : M bool :=
  result <- pthread_rwlock_trywrlock ;;;
  if negb (result =? 0) && negb (result =? EBUSY) then
    throwex (SystemException "Failed to try lock for write!" (Some result))
  else ret (result =? 0).

(** [RWLock::TryLockRead] *)
Definition TryLockRead : M bool := Impl_TryLockRead.

(** [RWLock::TryLockWrite] *)
Definition TryLockWrite : M bool := Impl_TryLockWrite.

(** The [while] loop of [TryLockReadFor]; [fuel] bounds the number of times
    its body is entered. *)
Fixpoint TryLockReadFor_loop (fuel : nat) (finish : Timestamp.t) : M bool :=
  now <- NanoTimestamp ;;;
  if Timestamp.ltb now finish then
    match fuel with
    | O => spinning
    | S fuel' =>
        locked <- TryLockRead ;;;
        if locked then ret true
        else Thread_Yield ;;; TryLockReadFor_loop fuel' finish
    end
  else ret false.

(** [RWLock::TryLockReadFor] *)
Definition TryLockReadFor (fuel : nat) (timespan : Z) : M bool :=
  now <- NanoTimestamp ;;;
  let finish := Timestamp.add now timespan in
  locked <- TryLockRead ;;;
  if locked then ret true
  else TryLockReadFor_loop fuel finish.

(** The [while] loop of [TryLockWriteFor]. *)
Fixpoint TryLockWriteFor_loop (fuel : nat) (finish : Timestamp.t) : M bool :=
  now <- NanoTimestamp ;;;
  if Timestamp.ltb now finish then
    match fuel with
    | O => spinning
    | S fuel' =>
        locked <- TryLockWrite ;;;
        if locked then ret true
        else Thread_Yield ;;; TryLockWriteFor_loop fuel' finish
    end
  else ret false.

(** [RWLock::TryLockWriteFor] *)
Definition TryLockWriteFor (fuel : nat) (timespan : Z) : M bool :=
  now <- NanoTimestamp ;;;
  let finish := Timestamp.add now timespan in
  locked <- TryLockWrite ;;;
  if locked then ret true
  else TryLockWriteFor_loop fuel finish.

End Errno.

(** *** The timed acquire as the specification words it (section 4.4)

    "compute [deadline = now_monotonic_ns() + timeout]; attempt one
    immediate non-blocking try-lock; if it fails, loop { if
    [now_monotonic_ns() >= deadline] return false; attempt non-blocking
    try-lock; if it succeeds return true; otherwise yield the current
    execution slice to the scheduler and retry }" *)

Section Policy.

Variable try_lock : M bool.

Fixpoint policy_loop (fuel : nat) (deadline : Z) : M bool :=
  now <- NanoTimestamp ;;;
  if Timestamp.total now >=? deadline then ret false
  else
    match fuel with
    | O => spinning
    | S fuel' =>
        acquired <- try_lock ;;;
        if acquired then ret true
        else Thread_Yield ;;; policy_loop fuel' deadline
    end.

Definition timed_acquire_policy (fuel : nat) (timeout : Z) : M bool :=
  now <- NanoTimestamp ;;;
  let deadline := Timestamp.total (Timestamp.add now timeout) in
  acquired <- try_lock ;;;
  if acquired then ret true
  else policy_loop fuel deadline.

End Policy.

(** The number of native try-lock calls and of yields among events. *)
Definition is_try (e : Event) : bool :=
  match e with
  | EvTryRdLock _ | EvTryWrLock _ => true
  | _ => false
  end.

Definition is_yield (e : Event) : bool :=
  match e with
  | EvYield => true
  | _ => false
  end.

Definition attempts (events : list Event) : nat :=
  List.length (filter is_try events).

Definition yields (events : list Event) : nat :=
  List.length (filter is_yield events).

(** The clock of a world never runs backwards (section 4.1). *)
Definition monotonic (w : World) : Prop :=
  forall i j : nat, (i <= j)%nat -> clock w i <= clock w j.

(** The world after the first clock reading of a timed acquire. *)
Definition after_reading (w : World) : World :=
  mk_world (clock w) (clock_failure w) (native w)
    (S (clock_reads w)) (native_calls w)
    (EvNanoTimestamp (clock w (clock_reads w)) :: trace w).

(** A try-lock operation makes one native try-lock call and nothing else,
    and returns or throws. *)
Definition single_attempt (try_lock : M bool) : Prop :=
  forall w : World,
    exists (res : Res bool) (ev : Event),
      try_lock w
      = (Some res,
         mk_world (clock w) (clock_failure w) (native w)
           (clock_reads w) (S (native_calls w))
           (ev :: trace w)) /\
      is_try ev = true /\ is_yield ev = false.

(** The world after a clock read at which the platform counter was not
    available. *)
Definition after_failure (w : World) : World :=
  mk_world (clock w) (clock_failure w) (native w) (S (clock_reads w))
    (native_calls w) (EvNanoTimestampFails :: trace w).

(** The world in which the native calls return [results] in turn, and 16,
    the value of [EBUSY] on Linux, after them, while the clock reads
    [readings] in turn, and the last of them from then on, and never
    fails. *)
Definition scripted (readings results : list Z) : World :=
  mk_world (fun i => nth i readings (last readings 0)) (fun _ => None)
    (fun i => nth i results 16) 0 0 [].

(** The world [w] with the platform counter unavailable at the clock read
    number [i]. *)
Definition unavailable_at (i : nat) (message : string) (code : option Z)
    (w : World) : World :=
  mk_world (clock w)
    (fun j =>
       if Nat.eqb j i then Some (message, code) else clock_failure w j)
    (native w) (clock_reads w) (native_calls w) (trace w).

End RWLock.

(** * The vocabulary of the properties *)

(** ** The documented field ranges (section 3) *)

Inductive Field : Type :=
| Year | Month | Day | Hour | Minute | Second
| Millisecond | Microsecond | Nanosecond.

Definition field_name (f : Field) : string :=
  match f with
  | Year => "Year" | Month => "Month" | Day => "Day" | Hour => "Hour"
  | Minute => "Minute" | Second => "Second" | Millisecond => "Millisecond"
  | Microsecond => "Microsecond" | Nanosecond => "Nanosecond"
  end.

(** Section 3: year 1970..3000, or 1970..2038 with a 32-bit epoch counter;
    month 1..12; day 1..31; hour 0..23; minute and second 0..59; the three
    sub-second fields 0..999. *)
Definition field_range (epoch_bytes : Z) (f : Field) : Z * Z :=
  match f with
  | Year => (1970, if epoch_bytes =? 4 then 2038 else 3000)
  | Month => (1, 12)
  | Day => (1, 31)
  | Hour => (0, 23)
  | Minute | Second => (0, 59)
  | Millisecond | Microsecond | Nanosecond => (0, 999)
  end.

Definition field_value (t : Time) (f : Field) : Z :=
  match f with
  | Year => _year t | Month => _month t | Day => _day t | Hour => _hour t
  | Minute => _minute t | Second => _second t
  | Millisecond => _millisecond t | Microsecond => _microsecond t
  | Nanosecond => _nanosecond t
  end.

Definition in_range (epoch_bytes : Z) (t : Time) (f : Field) : Prop :=
  fst (field_range epoch_bytes f) <= field_value t f
    <= snd (field_range epoch_bytes f).

(** The fields in the order in which the constructor checks them. *)
Definition fields : list Field :=
  [Year; Month; Day; Hour; Minute; Second;
   Millisecond; Microsecond; Nanosecond].

Definition valid_fields (epoch_bytes : Z) (t : Time) : Prop :=
  forall f : Field, in_range epoch_bytes t f.

(** A message that names a field and its valid range. *)
Definition range_message (epoch_bytes : Z) (f : Field) : string :=
  (field_name f ++ " value is limited in range from "
     ++ to_string (fst (field_range epoch_bytes f)) ++ " to "
     ++ to_string (snd (field_range epoch_bytes f)) ++ "!")%string.

(** [f] is the first field, in checking order, that is out of range. *)
Definition first_offender (epoch_bytes : Z) (t : Time) (f : Field) : Prop :=
  ~ in_range epoch_bytes t f /\
  exists before after : list Field,
    fields = (before ++ f :: after)%list /\
    forall g : Field, In g before -> in_range epoch_bytes t g.

(** The exact value the composition formula denotes. *)
Definition epoch_nanoseconds (seconds : Z) (t : Time) : Z :=
  seconds * 1000000000 + _millisecond t * 1000000
  + _microsecond t * 1000 + _nanosecond t.

(** The six date and time fields of two broken-down times agree. *)
Definition same_date (a b : tm) : Prop :=
  tm_year a = tm_year b /\ tm_mon a = tm_mon b /\ tm_mday a = tm_mday b /\
  tm_hour a = tm_hour b /\ tm_min a = tm_min b /\ tm_sec a = tm_sec b.

(** A broken-down time as POSIX describes the result of [gmtime_r] and
    [localtime_r]; [tm_sec] may be 60 in a leap second. *)
Definition tm_wf (r : tm) : Prop :=
  0 <= tm_sec r <= 60 /\ 0 <= tm_min r <= 59 /\ 0 <= tm_hour r <= 23 /\
  1 <= tm_mday r <= 31 /\ 0 <= tm_mon r <= 11.

(** The three decomposing constructors and the platform call each makes. *)
Inductive Decomposer : Type := ByTime | ByUtcTime | ByLocalTime.

Definition decompose (L : Libc) (k : Decomposer) : Timestamp.t -> Res Time :=
  match k with
  | ByTime => Time_of_timestamp L
  | ByUtcTime => UtcTime L
  | ByLocalTime => LocalTime L
  end.

Definition platform_call (L : Libc) (k : Decomposer) : Z -> option tm :=
  match k with
  | ByTime | ByUtcTime => gmtime_r L
  | ByLocalTime => localtime_r L
  end.

(** Compose a calendar time to a timestamp, then decompose the timestamp. *)
Definition utc_round_trip (L : Libc) (t : Time) : Res Time :=
  res_bind (utcstamp L t) (UtcTime L).

Definition local_round_trip (L : Libc) (t : Time) : Res Time :=
  res_bind (localstamp L t) (LocalTime L).

(** What composing with the seconds [s] of the platform call gives: the
    [SystemException] of the call's failure, or a 64-bit timestamp that
    differs from the exact count by a multiple of [2 ^ 64]. *)
Definition composed_unchecked
    (outcome : Res Timestamp.t) (s : Z) (t : Time) (message : string)
    : Prop :=
  (s = -1 /\ outcome = Throw (SystemException message None)) \/
  (exists ts : Timestamp.t,
      outcome = Ok ts /\ Timestamp.wf ts /\
      exists k : Z,
        epoch_nanoseconds s t = Timestamp.total ts + k * 2 ^ 64).

(** ** Decomposition followed by composition *)

(** Decompose a timestamp to a calendar time, then compose the calendar
    time, with each of the three decomposing constructors. *)
Definition recompose (L : Libc) (k : Decomposer) (ts : Timestamp.t)
    : Res Timestamp.t :=
  res_bind (decompose L k ts)
    (match k with
     | ByTime | ByUtcTime => utcstamp L
     | ByLocalTime => localstamp L
     end).

(** The order of composed values: by seconds, then milliseconds, then
    microseconds, then nanoseconds. *)
Definition stamp_before (s1 : Z) (t1 : Time) (s2 : Z) (t2 : Time) : Prop :=
  s1 < s2 \/
  (s1 = s2 /\
   (_millisecond t1 < _millisecond t2 \/
    (_millisecond t1 = _millisecond t2 /\
     (_microsecond t1 < _microsecond t2 \/
      (_microsecond t1 = _microsecond t2 /\
       _nanosecond t1 < _nanosecond t2))))).

(** The three sub-second fields are in their ranges. *)
Definition subsecond_in_range (t : Time) : Prop :=
  0 <= _millisecond t <= 999 /\
  0 <= _microsecond t <= 999 /\
  0 <= _nanosecond t <= 999.

(** The two composing member functions and the platform call each makes. *)
Inductive Composer : Type := ByUtcStamp | ByLocalStamp.

Definition compose (L : Libc) (c : Composer) : Time -> Res Timestamp.t :=
  match c with
  | ByUtcStamp => utcstamp L
  | ByLocalStamp => localstamp L
  end.

Definition platform_seconds (L : Libc) (c : Composer) (t : Time) : Z :=
  match c with
  | ByUtcStamp => timegm L (tm_of t)
  | ByLocalStamp => mktime L (tm_of t)
  end.

(** ** Counting the calls of a run of the lock operations *)

Module RWLockRuns.
Import RWLock.

Definition is_reading (e : Event) : bool :=
  match e with
  | EvNanoTimestamp _ | EvNanoTimestampFails => true
  | _ => false
  end.

(** The number of clock reads, failed ones included, among events. *)
Definition readings (events : list Event) : nat :=
  List.length (filter is_reading events).

(** What a try-lock makes of the result of its native call
    ([RWLock::Impl::TryLockRead], [RWLock::Impl::TryLockWrite]). *)
Definition try_outcome (EBUSY : Z) (message : string) (result : Z)
    : Res bool :=
  if (result =? 0) || (result =? EBUSY) then Ok (result =? 0)
  else Throw (SystemException message (Some result)).

(** The calls [events], most recent first, that a timed acquire entered in
    the world [w] has made when it ends with [res], by the call that ended
    it: a clock reading, after which it returns false; a clock read that
    failed, whose exception it throws; or a native try-lock call, whose
    success it returns or whose exception it throws.  [ev] and [outcome]
    are the event of the native try-lock call of the operation and what the
    try-lock makes of its result. *)
Definition finished_run (ev : Z -> Event) (outcome : Z -> Res bool)
    (w : World) (res : Res bool) (events : list Event) : Prop :=
  (exists (reading : Z) (earlier : list Event),
      events = EvNanoTimestamp reading :: earlier /\
      res = Ok false /\
      readings events = S (attempts events) /\
      attempts events = S (yields events)) \/
  (exists (message : string) (code : option Z) (earlier : list Event),
      events = EvNanoTimestampFails :: earlier /\
      clock_failure w (clock_reads w + attempts events)
      = Some (message, code) /\
      res = Throw (SystemException message code) /\
      readings events = S (attempts events) /\
      (attempts events = 0%nat /\ yields events = 0%nat \/
       attempts events = S (yields events))) \/
  (exists (result : Z) (earlier : list Event),
      events = ev result :: earlier /\
      res = outcome result /\
      res <> Ok false /\
      readings events = attempts events /\
      (attempts events = 1%nat /\ yields events = 0%nat \/
       attempts events = S (S (yields events)))).

End RWLockRuns.

(** ** Construction, move and destruction of the lock
    ([threads/rw_lock.cpp], POSIX build) *)

Module Lifecycle.

(** An operation returns, throws ([throwex]), or ends the process
    ([fatality]). *)
Inductive Outcome (A : Type) : Type :=
| Returned (a : A)
| Thrown (e : Exception)
| Aborted (e : Exception).
Arguments Returned {A} a.
Arguments Thrown {A} e.
Arguments Aborted {A} e.

(** The memory the lock objects live in.  [objects] maps the address of an
    [RWLock] to the value of its member [_pimpl] ([None] where there is no
    object, [Some None] for an object whose pointer is null); [live] holds
    the addresses of the [Impl] objects whose native lock is initialised
    and not yet destroyed.  The results of the successive calls of
    [pthread_rwlock_init] and [pthread_rwlock_destroy] are given by the
    environment. *)
Record Heap : Type := mk_heap {
  init_results : nat -> Z;
  destroy_results : nat -> Z;
  init_calls : nat;
  destroy_calls : nat;
  next_impl : nat;
  live : list nat;
  objects : nat -> option (option nat)
}.

Definition set_object (objs : nat -> option (option nat)) (this : nat)
    (value : option (option nat)) : nat -> option (option nat) :=
  fun i => if Nat.eqb i this then value else objs i.

(** The pointer held by the object at [this]. *)
Definition pimpl (h : Heap) (this : nat) : option nat :=
  match objects h this with
  | Some p => p
  | None => None
  end.

Definition with_objects (h : Heap) (objs : nat -> option (option nat))
    : Heap :=
  mk_heap (init_results h) (destroy_results h) (init_calls h)
    (destroy_calls h) (next_impl h) (live h) objs.

(** [std::make_unique<Impl>()] with [RWLock::Impl::Impl()]: the native lock
    is initialised in a new [Impl]; when the call fails the constructor
    throws and no [Impl] remains. *)
Definition make_unique_Impl (h : Heap) : Outcome nat * Heap :=
  let result := init_results h (init_calls h) in
  if negb (result =? 0) then
    (Thrown (SystemException "Failed to initialize a read/write lock!"
               (Some result)),
     mk_heap (init_results h) (destroy_results h) (S (init_calls h))
       (destroy_calls h) (next_impl h) (live h) (objects h))
  else
    (Returned (next_impl h),
     mk_heap (init_results h) (destroy_results h) (S (init_calls h))
       (destroy_calls h) (S (next_impl h)) (next_impl h :: live h)
       (objects h)).

(** [delete] of an [Impl], with [RWLock::Impl::~Impl()]: the native lock is
    destroyed; when the call fails the destructor calls [fatality]. *)
Definition delete_Impl (p : nat) (h : Heap) : Outcome unit * Heap :=
  let result := destroy_results h (destroy_calls h) in
  if negb (result =? 0) then
    (Aborted (SystemException "Failed to destroy a read/write lock!"
                (Some result)),
     mk_heap (init_results h) (destroy_results h) (init_calls h)
       (S (destroy_calls h)) (next_impl h) (live h) (objects h))
  else
    (Returned tt,
     mk_heap (init_results h) (destroy_results h) (init_calls h)
       (S (destroy_calls h)) (next_impl h)
       (List.remove Nat.eq_dec p (live h)) (objects h)).

(** [RWLock::RWLock()], constructing the object at [this]. *)
Definition RWLock_ctor (this : nat) (h : Heap) : Outcome unit * Heap :=
  match make_unique_Impl h with
  | (Returned p, h1) =>
      (Returned tt,
       with_objects h1 (set_object (objects h1) this (Some (Some p))))
  | (Thrown e, h1) => (Thrown e, h1)
  | (Aborted e, h1) => (Aborted e, h1)
  end.

(** [RWLock::RWLock(RWLock&& lock)], constructing the object at [this]:
    [_pimpl(std::move(lock._pimpl))] takes the pointer that [lock] gives
    up. *)
Definition RWLock_move_ctor (this lock : nat) (h : Heap) : Heap :=
  let p := pimpl h lock in
  let h1 := with_objects h (set_object (objects h) lock (Some None)) in
  with_objects h1 (set_object (objects h1) this (Some p)).

(** [RWLock::~RWLock()]: the body is empty and the member [_pimpl] is
    destroyed, which deletes the [Impl] it points to, if any. *)
Definition RWLock_dtor (this : nat) (h : Heap) : Outcome unit * Heap :=
  let old := pimpl h this in
  let h1 := with_objects h (set_object (objects h) this None) in
  match old with
  | Some q => delete_Impl q h1
  | None => (Returned tt, h1)
  end.

(** [RWLock::operator=(RWLock&& lock)]: [_pimpl = std::move(lock._pimpl)]
    is [reset(lock._pimpl.release())]: [lock] gives up its pointer, [this]
    takes it, and the [Impl] that [this] pointed to before, if any, is
    deleted. *)
Definition RWLock_move_assign (this lock : nat) (h : Heap)
    : Outcome unit * Heap :=
  let p := pimpl h lock in
  let h1 := with_objects h (set_object (objects h) lock (Some None)) in
  let old := pimpl h1 this in
  let h2 := with_objects h1 (set_object (objects h1) this (Some p)) in
  match old with
  | Some q => delete_Impl q h2
  | None => (Returned tt, h2)
  end.

(** The object at [this] exists. *)
Definition alive (h : Heap) (this : nat) : Prop := objects h this <> None.

(** Unique ownership: every pointer held by an object points to a live
    [Impl], no two objects hold the same pointer, every live [Impl] is
    held by some object, and the live [Impl]s are distinct and were made by
    [make_unique]. *)
Definition unique_ownership (h : Heap) : Prop :=
  (forall (i p : nat), pimpl h i = Some p -> In p (live h)) /\
  (forall (i j p : nat),
     pimpl h i = Some p -> pimpl h j = Some p -> i = j) /\
  (forall p : nat, In p (live h) -> exists i : nat, pimpl h i = Some p) /\
  NoDup (live h) /\
  (forall p : nat, In p (live h) -> (p < next_impl h)%nat).

(** A heap for examples: two lock objects, at 0 and 1, each holding its own
    [Impl], on a platform where every call succeeds. *)
Definition two_locks : Heap :=
  mk_heap (fun _ => 0) (fun _ => 0) 2 0 2 [1%nat; 0%nat]
    (fun i => match i with
              | O => Some (Some 0%nat)
              | S O => Some (Some 1%nat)
              | _ => None
              end).

End Lifecycle.

(** * Properties *)

(** ** Machine arithmetic *)

Lemma u64_range (x : Z) : 0 <= u64 x < 2 ^ 64.
Proof. unfold u64. apply Z.mod_pos_bound. lia. Qed.

Lemma u64_small (x : Z) : 0 <= x < 2 ^ 64 -> u64 x = x.
Proof. intros H. unfold u64. now apply Z.mod_small. Qed.

Lemma u64_add_l (x y : Z) : u64 (u64 x + y) = u64 (x + y).
Proof. unfold u64. apply Zplus_mod_idemp_l. Qed.

Lemma u64_add_r (x y : Z) : u64 (x + u64 y) = u64 (x + y).
Proof. unfold u64. apply Zplus_mod_idemp_r. Qed.

Lemma u64_mul_l (x y : Z) : u64 (u64 x * y) = u64 (x * y).
Proof. unfold u64. apply Zmult_mod_idemp_l. Qed.

Lemma stamp_value_wraps (time : Z) (t : Time) :
  stamp_value time t = u64 (epoch_nanoseconds time t).
Proof.
  unfold stamp_value, epoch_nanoseconds.
  rewrite !u64_mul_l, !u64_add_r, !u64_add_l.
  rewrite <- (Z.add_assoc (u64 _)), u64_add_l, Z.add_assoc.
  reflexivity.
Qed.

Lemma to_signed_small (x : Z) : - 2 ^ 63 <= x < 2 ^ 63 -> to_signed 8 x = x.
Proof.
  intros H. unfold to_signed.
  change (2 ^ (8 * 8)) with 18446744073709551616.
  change (18446744073709551616 / 2) with 9223372036854775808.
  change (2 ^ 63) with 9223372036854775808 in H.
  destruct (Z.ltb_spec (x mod 18446744073709551616) 9223372036854775808) as [Hlt | Hge].
  - destruct (Z_lt_le_dec x 0) as [Hneg | Hpos].
    + rewrite <- (Z_mod_plus_full x 1 18446744073709551616) in Hlt.
      rewrite Z.mod_small in Hlt; lia.
    + apply Z.mod_small. lia.
  - destruct (Z_lt_le_dec x 0) as [Hneg | Hpos].
    + rewrite <- (Z_mod_plus_full x 1 18446744073709551616).
      rewrite Z.mod_small; lia.
    + rewrite Z.mod_small in Hge; lia.
Qed.

(** ** Construction from explicit fields *)

Ltac range_goal E :=
  unfold in_range, field_range, field_value; cbn [fst snd
    _year _month _day _hour _minute _second
    _millisecond _microsecond _nanosecond];
  rewrite ?E; lia.

Ltac offender_at k E :=
  right; exists (nth k fields Year); cbn [nth fields]; split;
  [ split;
    [ range_goal E
    | exists (firstn k fields), (skipn (S k) fields); split;
      [ reflexivity
      | cbn [firstn fields In]; intros g Hg;
        repeat (destruct Hg as [<- | Hg]; [range_goal E | ]);
        contradiction ] ]
  | unfold range_message, field_range; cbn [fst snd field_name];
    rewrite ?E; reflexivity ].

Ltac check_at k E :=
  match goal with
  | |- context [reject_if ((?a <? ?b) || (?c <? ?d)) _] =>
      destruct (Z.ltb_spec a b); [ offender_at k E | ];
      destruct (Z.ltb_spec c d); [ offender_at k E | ];
      cbn [orb reject_if res_bind]
  end.

(** The constructor either accepts a tuple all of whose fields are in
    range, or throws the message of the first field that is not. *)
Lemma Time_of_fields_cases
    (L : Libc) (year month day hour minute second : Z)
    (millisecond microsecond nanosecond : Z) :
  let t := mk_time year month day hour minute second
             millisecond microsecond nanosecond in
  let construct :=
    Time_of_fields L year month day hour minute second
      millisecond microsecond nanosecond in
  (valid_fields (sizeof_time_t L) t /\ construct = Ok t) \/
  (exists f : Field,
      first_offender (sizeof_time_t L) t f /\
      construct =
        Throw (ArgumentException (range_message (sizeof_time_t L) f))).
Proof.
  cbv zeta. unfold Time_of_fields. rewrite !Z.gtb_ltb.
  destruct (sizeof_time_t L =? 4) eqn:E.
  all: check_at 0%nat E; check_at 1%nat E; check_at 2%nat E;
    check_at 3%nat E; check_at 4%nat E; check_at 5%nat E;
    check_at 6%nat E; check_at 7%nat E; check_at 8%nat E.
  all: left; split; [ intros f; destruct f; range_goal E | reflexivity ].
Qed.

(** An accepted tuple has all its fields in range. *)
Lemma Time_of_fields_accepts_valid
    (L : Libc) (year month day hour minute second : Z)
    (millisecond microsecond nanosecond : Z) (t : Time) :
  Time_of_fields L year month day hour minute second
    millisecond microsecond nanosecond = Ok t ->
  t = mk_time year month day hour minute second
        millisecond microsecond nanosecond /\
  valid_fields (sizeof_time_t L) t.
Proof.
  intros Hok.
  destruct (Time_of_fields_cases L year month day hour minute second
              millisecond microsecond nanosecond)
    as [[Hv Heq] | [f [_ Hthrow]]]; cbv zeta in *.
  - rewrite Heq in Hok. injection Hok as <-. now split.
  - rewrite Hthrow in Hok. discriminate Hok.
Qed.

(** C4.  Constructing a calendar time from explicit fields succeeds exactly
    when every field lies in its documented range, where the year range is
    1970..2038 if [time_t] has four bytes and 1970..3000 otherwise.  When it
    fails it throws an [ArgumentException] whose message names the first
    offending field and its valid range.  The outcome depends on the
    platform through the width of [time_t] only: no conversion call is
    consulted.  In particular month 13 fails, year 1969 fails, and year 2038
    with the other fields in range succeeds when [time_t] is not four bytes
    wide. *)
Theorem Time_of_fields_validates
    (L : Libc) (year month day hour minute second : Z)
    (millisecond microsecond nanosecond : Z) :
  let t := mk_time year month day hour minute second
             millisecond microsecond nanosecond in
  let construct (P : Libc) :=
    Time_of_fields P year month day hour minute second
      millisecond microsecond nanosecond in
  let size := sizeof_time_t L in
  (valid_fields size t <-> construct L = Ok t) /\
  (forall e : Exception, construct L = Throw e ->
     exists f : Field,
       first_offender size t f /\
       e = ArgumentException (range_message size f)) /\
  (forall L' : Libc, sizeof_time_t L' = size -> construct L' = construct L) /\
  (month = 13 ->
     construct L = Throw (ArgumentException (range_message size Month)) \/
     construct L = Throw (ArgumentException (range_message size Year))) /\
  (year = 1969 ->
     construct L = Throw (ArgumentException (range_message size Year))) /\
  (size <> 4 -> year = 2038 ->
     (forall f : Field, f <> Year -> in_range size t f) ->
     construct L = Ok t).
Proof.
  intros t construct size.
  pose proof (Time_of_fields_cases L year month day hour minute second
                millisecond microsecond nanosecond) as Hcases.
  cbv zeta in Hcases. fold t in Hcases. fold size in Hcases.
  change (Time_of_fields L year month day hour minute second
            millisecond microsecond nanosecond) with (construct L) in Hcases.
  assert (Hvalid : valid_fields size t -> construct L = Ok t).
  { intros Hv. destruct Hcases as [[_ Hok] | [f [[Hout _] _]]]; [exact Hok | ].
    elim Hout. apply Hv. }
  assert (Hthrow : forall f : Field,
             first_offender size t f ->
             construct L = Throw (ArgumentException (range_message size f))).
  { intros f [Hout [before [after [Hsplit Hbefore]]]].
    destruct Hcases as [[Hv _] | [g [[Hg [b' [a' [Hsplit' Hb']]]] Hthrow]]].
    - elim Hout. apply Hv.
    - assert (f = g) as ->; [ | exact Hthrow ].
      unfold fields in Hsplit, Hsplit'.
      destruct f, g; try reflexivity; exfalso.
      all: repeat (destruct before as [ | ? before];
                   [ try discriminate Hsplit | ];
                   cbn [app] in Hsplit;
                   try (injection Hsplit as <- Hsplit);
                   try discriminate Hsplit).
      all: repeat (destruct b' as [ | ? b'];
                   [ try discriminate Hsplit' | ];
                   cbn [app] in Hsplit';
                   try (injection Hsplit' as <- Hsplit');
                   try discriminate Hsplit').
      all: try (apply Hg, Hbefore; cbn; tauto).
      all: try (apply Hout, Hb'; cbn; tauto). }
  refine (conj (conj Hvalid _) (conj _ (conj _ (conj _ (conj _ _))))).
  - intros Hok. destruct Hcases as [[Hv _] | [f [_ Hthrow']]]; [exact Hv | ].
    rewrite Hthrow' in Hok. discriminate Hok.
  - intros e He. destruct Hcases as [[_ Hok] | [f [Hf Hthrow']]].
    + rewrite Hok in He. discriminate He.
    + exists f. split; [exact Hf | ]. rewrite Hthrow' in He. now injection He.
  - intros L' Hsize. unfold construct, Time_of_fields. now rewrite Hsize.
  - intros ->.
    destruct Hcases as [[Hv _] | [f [Hf Hthrow']]].
    + specialize (Hv Month). unfold in_range, t in Hv. cbn in Hv. lia.
    + destruct Hf as [Hout [before [after [Hsplit Hbefore]]]].
      destruct f; try (now right); try (now left); exfalso.
      all: unfold fields in Hsplit.
      all: repeat (destruct before as [ | ? before];
                   [ try discriminate Hsplit | ];
                   cbn [app] in Hsplit;
                   try (injection Hsplit as <- Hsplit);
                   try discriminate Hsplit).
      all: assert (Hm : in_range size t Month) by (apply Hbefore; cbn; tauto).
      all: unfold in_range, t in Hm; cbn in Hm; lia.
  - intros ->. apply Hthrow. split.
    + unfold in_range, t. cbn. lia.
    + exists [], (tl fields). split; [reflexivity | intros g []].
  - intros Hsize -> Hothers. apply Hvalid. intros f.
    destruct f; try (apply Hothers; discriminate).
    unfold in_range, field_range, t. cbn [fst snd field_value _year].
    destruct (Z.eqb_spec size 4); [contradiction | lia].
Qed.

Lemma Time_of_fields_validates_witness :
  sizeof_time_t (Posix.libc 0) <> 4 /\
  Time_of_fields (Posix.libc 0) 2038 7 12 0 0 0 0 0 0
  = Ok (mk_time 2038 7 12 0 0 0 0 0 0).
Proof.
  split; [discriminate | ].
  apply (Time_of_fields_validates (Posix.libc 0) 2038 7 12 0 0 0 0 0 0).
  - discriminate.
  - reflexivity.
  - intros f _. destruct f; unfold in_range; cbn; lia.
Defined.

(** ** Decomposition *)

Lemma decompose_cases (L : Libc) (k : Decomposer) (ts : Timestamp.t) :
  let time := to_time_t L (Timestamp.total ts / 1000000000) in
  match platform_call L k time with
  | Some r => decompose L k ts = Ok (fields_of r ts)
  | None =>
      exists message : string,
        decompose L k ts = Throw (SystemException message None)
  end.
Proof.
  destruct k; cbn;
    unfold Time_of_timestamp, UtcTime, LocalTime, Timestamp.seconds;
    match goal with |- context [match ?c with _ => _ end] => destruct c end;
    eauto.
Qed.

Lemma subsecond_split (n : Z) :
  n mod 1000000000
  = n / 1000000 mod 1000 * 1000000 + n / 1000 mod 1000 * 1000 + n mod 1000.
Proof. Z.div_mod_to_equations. lia. Qed.

(** C8.  Each decomposing constructor passes the whole seconds of the
    timestamp, [total / 10^9] converted to [time_t], to the platform
    calendar call, returns exactly when that call succeeds, and sets the
    millisecond, microsecond and nanosecond fields to the timestamp's total
    milliseconds, microseconds and nanoseconds modulo 1000.  Each of the
    three lies in 0..999, together they are the sub-second remainder
    [total mod 10^9], and the conversion to a 64-bit [time_t] leaves the
    seconds of a 64-bit timestamp unchanged. *)
Theorem decompose_subsecond_fields
    (L : Libc) (k : Decomposer) (ts : Timestamp.t) :
  let time := to_time_t L (Timestamp.total ts / 1000000000) in
  (forall t : Time, decompose L k ts = Ok t ->
     (exists r : tm, platform_call L k time = Some r /\ t = fields_of r ts) /\
     _millisecond t = Timestamp.total ts / 1000000 mod 1000 /\
     _microsecond t = Timestamp.total ts / 1000 mod 1000 /\
     _nanosecond t = Timestamp.total ts mod 1000 /\
     0 <= _millisecond t <= 999 /\
     0 <= _microsecond t <= 999 /\
     0 <= _nanosecond t <= 999 /\
     Timestamp.total ts mod 1000000000
     = _millisecond t * 1000000 + _microsecond t * 1000 + _nanosecond t) /\
  (forall r : tm, platform_call L k time = Some r ->
     decompose L k ts = Ok (fields_of r ts)) /\
  (sizeof_time_t L = 8 -> Timestamp.wf ts ->
     time = Timestamp.total ts / 1000000000).
Proof.
  intros time. pose proof (decompose_cases L k ts) as Hcases.
  cbv zeta in Hcases. fold time in Hcases.
  refine (conj _ (conj _ _)).
  - intros t Ht.
    destruct (platform_call L k time) as [r | ].
    + rewrite Hcases in Ht. injection Ht as <-.
      split; [now exists r | ].
      unfold fields_of, Timestamp.milliseconds, Timestamp.microseconds,
        Timestamp.nanoseconds; cbn.
      pose proof (Z.mod_pos_bound (Timestamp.total ts / 1000000) 1000).
      pose proof (Z.mod_pos_bound (Timestamp.total ts / 1000) 1000).
      pose proof (Z.mod_pos_bound (Timestamp.total ts) 1000).
      pose proof (subsecond_split (Timestamp.total ts)).
      repeat split; lia.
    + destruct Hcases as [message Hthrow]. rewrite Hthrow in Ht.
      discriminate Ht.
  - intros r Hr. now rewrite Hr in Hcases.
  - intros Hsize [Hlo Hhi]. unfold time, to_time_t. rewrite Hsize.
    apply to_signed_small.
    change (2 ^ 64) with 18446744073709551616 in Hhi.
    change (2 ^ 63) with 9223372036854775808.
    split.
    + transitivity 0; [lia | ]. apply Z.div_pos; lia.
    + apply Z.div_lt_upper_bound; lia.
Qed.

Lemma decompose_subsecond_fields_witness :
  decompose (Posix.libc 0) ByUtcTime (Timestamp.Make 1468281600123456789)
  = Ok (mk_time 2016 7 12 0 0 0 123 456 789) /\
  0 <= _millisecond (mk_time 2016 7 12 0 0 0 123 456 789) <= 999.
Proof.
  split; [reflexivity | ].
  pose proof (decompose_subsecond_fields (Posix.libc 0) ByUtcTime
                (Timestamp.Make 1468281600123456789)) as H.
  cbv zeta in H. destruct H as [H _].
  destruct (H (mk_time 2016 7 12 0 0 0 123 456 789) eq_refl)
    as (_ & _ & _ & _ & Hms & _).
  exact Hms.
Defined.

(** C10, as amended.  The second field of a decomposed calendar time is the
    platform's [tm_sec] reduced by [% 60]: it lies in 0..59 for every
    non-negative [tm_sec] and is 0 for a leap-second value of 60.  The
    millisecond, microsecond and nanosecond fields lie in 0..999.  When the
    platform returns a broken-down time in the POSIX ranges, month, day,
    hour and minute are in their documented ranges as well; the year is the
    platform's [tm_year + 1900], whatever that is. *)
Theorem decompose_field_ranges
    (L : Libc) (k : Decomposer) (ts : Timestamp.t) (t : Time) :
  decompose L k ts = Ok t ->
  exists r : tm,
    platform_call L k (to_time_t L (Timestamp.seconds ts)) = Some r /\
    _second t = Z.rem (tm_sec r) 60 /\
    (0 <= tm_sec r -> _second t = tm_sec r mod 60 /\ 0 <= _second t <= 59) /\
    (tm_sec r = 60 -> _second t = 0) /\
    0 <= _millisecond t <= 999 /\
    0 <= _microsecond t <= 999 /\
    0 <= _nanosecond t <= 999 /\
    _year t = tm_year r + 1900 /\
    (tm_wf r ->
       forall f : Field, f <> Year -> in_range (sizeof_time_t L) t f).
Proof.
  intros Ht. pose proof (decompose_cases L k ts) as Hcases.
  cbv zeta in Hcases. fold (Timestamp.seconds ts) in Hcases.
  destruct (platform_call L k (to_time_t L (Timestamp.seconds ts)))
    as [r | ].
  2: { destruct Hcases as [message Hthrow]. rewrite Hthrow in Ht.
       discriminate Ht. }
  rewrite Hcases in Ht. injection Ht as <-. exists r.
  assert (Hsec : 0 <= tm_sec r ->
                 Z.rem (tm_sec r) 60 = tm_sec r mod 60 /\
                 0 <= Z.rem (tm_sec r) 60 <= 59).
  { intros Hpos. rewrite Z.rem_mod_nonneg by lia.
    pose proof (Z.mod_pos_bound (tm_sec r) 60). lia. }
  pose proof (Z.mod_pos_bound (Timestamp.milliseconds ts) 1000).
  pose proof (Z.mod_pos_bound (Timestamp.microseconds ts) 1000).
  pose proof (Z.mod_pos_bound (Timestamp.nanoseconds ts) 1000).
  cbn [fields_of _second _millisecond _microsecond _nanosecond _year].
  refine (conj eq_refl (conj eq_refl (conj Hsec (conj _ (conj _ (conj _
            (conj _ (conj eq_refl _)))))))); try lia.
  { intros ->. reflexivity. }
  intros (Hs & Hmin & Hhour & Hday & Hmon) f Hf.
  destruct f; try contradiction;
    unfold in_range, field_range, field_value, fields_of;
    cbn [fst snd _month _day _hour _minute _second
         _millisecond _microsecond _nanosecond];
    lia.
Qed.

Lemma decompose_field_ranges_witness :
  exists r : tm,
    gmtime_r (Posix.libc 0) 1468281600 = Some r /\
    _second (mk_time 2016 7 12 0 0 0 123 456 789) = Z.rem (tm_sec r) 60.
Proof.
  destruct (decompose_field_ranges (Posix.libc 0) ByUtcTime
              (Timestamp.Make 1468281600123456789)
              (mk_time 2016 7 12 0 0 0 123 456 789) eq_refl)
    as (r & Hr & Hsec & _).
  exists r. split; [exact Hr | exact Hsec].
Defined.

(** C10 fails as stated: five hours west of Greenwich the timestamp 0
    decomposes to 31 December 1969, 19:00:00, a broken-down time in the
    POSIX ranges whose year is below the documented 1970..3000; the field
    constructor rejects that very tuple. *)
Lemma decompose_year_out_of_range :
  let L := Posix.libc (-18000) in
  let t := mk_time 1969 12 31 19 0 0 0 0 0 in
  LocalTime L (Timestamp.Make 0) = Ok t /\
  (exists r : tm, localtime_r L 0 = Some r /\ tm_wf r) /\
  ~ valid_fields (sizeof_time_t L) t /\
  Time_of_fields L 1969 12 31 19 0 0 0 0 0
  = Throw (ArgumentException
             "Year value is limited in range from 1970 to 3000!").
Proof.
  cbv zeta. split; [reflexivity | ]. split; [ | split; [ | reflexivity ] ].
  - eexists. split; [reflexivity | ]. unfold tm_wf. cbn. lia.
  - intros Hv. specialize (Hv Year). unfold in_range in Hv. cbn in Hv. lia.
Qed.

(** ** Composition *)

(** C7, as amended.  [utcstamp] passes the fields, as a [struct tm] with
    [tm_year = year - 1900] and [tm_mon = month - 1], to [timegm], and
    [localstamp] passes the same to [mktime].  A result of -1 is a
    [SystemException]; any other result [s] gives the timestamp whose value
    is [s * 10^9 + millisecond * 10^6 + microsecond * 10^3 + nanosecond]
    reduced modulo [2 ^ 64], which is that sum itself whenever the sum lies
    in the range of an unsigned 64-bit integer. *)
Theorem compose_value (L : Libc) (t : Time) :
  (timegm L (tm_of t) = -1 ->
     utcstamp L t
     = Throw (SystemException
                "Cannot convert date & time to UTC timestamp!" None)) /\
  (timegm L (tm_of t) <> -1 ->
     utcstamp L t
     = Ok (Timestamp.Make
             (epoch_nanoseconds (timegm L (tm_of t)) t mod 2 ^ 64))) /\
  (timegm L (tm_of t) <> -1 ->
     0 <= epoch_nanoseconds (timegm L (tm_of t)) t < 2 ^ 64 ->
     utcstamp L t
     = Ok (Timestamp.Make (epoch_nanoseconds (timegm L (tm_of t)) t))) /\
  (mktime L (tm_of t) = -1 ->
     localstamp L t
     = Throw (SystemException
                "Cannot convert date & time to local timestamp!" None)) /\
  (mktime L (tm_of t) <> -1 ->
     localstamp L t
     = Ok (Timestamp.Make
             (epoch_nanoseconds (mktime L (tm_of t)) t mod 2 ^ 64))) /\
  (mktime L (tm_of t) <> -1 ->
     0 <= epoch_nanoseconds (mktime L (tm_of t)) t < 2 ^ 64 ->
     localstamp L t
     = Ok (Timestamp.Make (epoch_nanoseconds (mktime L (tm_of t)) t))).
Proof.
  unfold utcstamp, localstamp.
  destruct (Z.eqb_spec (timegm L (tm_of t)) (-1)) as [Hu | Hu];
    destruct (Z.eqb_spec (mktime L (tm_of t)) (-1)) as [Hl | Hl];
    rewrite ?stamp_value_wraps; unfold u64;
    repeat split; intros; try contradiction; try reflexivity;
    rewrite Z.mod_small by assumption; reflexivity.
Qed.

Lemma compose_value_witness :
  timegm (Posix.libc 0) (tm_of (mk_time 2016 7 12 0 0 0 123 456 789)) <> -1 /\
  utcstamp (Posix.libc 0) (mk_time 2016 7 12 0 0 0 123 456 789)
  = Ok (Timestamp.Make 1468281600123456789).
Proof.
  split; [discriminate | ].
  destruct (compose_value (Posix.libc 0)
              (mk_time 2016 7 12 0 0 0 123 456 789))
    as (_ & _ & H & _).
  apply H; [discriminate | ]. vm_compute. split; [discriminate | reflexivity].
Defined.

(** C7 fails as stated: 1 January 2600 passes validation, [timegm] returns
    19880899200 seconds, and the timestamp composed from it holds
    1434155126290448384, not 19880899200 * 10^9. *)
Lemma compose_value_wraps :
  let L := Posix.libc 0 in
  let t := mk_time 2600 1 1 0 0 0 0 0 0 in
  Time_of_fields L 2600 1 1 0 0 0 0 0 0 = Ok t /\
  timegm L (tm_of t) = 19880899200 /\
  utcstamp L t = Ok (Timestamp.Make 1434155126290448384) /\
  utcstamp L t
  <> Ok (Timestamp.Make (epoch_nanoseconds (timegm L (tm_of t)) t)).
Proof.
  cbv zeta. repeat split; try reflexivity. vm_compute. discriminate.
Qed.

(** ** The POSIX calendar: dates to days and back *)

Module PosixFacts.
Import Posix.

Ltac split_tests :=
  repeat match goal with
    | |- context [?a <=? ?b] => destruct (Z.leb_spec a b)
    | |- context [?a <? ?b] => destruct (Z.ltb_spec a b)
    | |- context [?a =? ?b] => destruct (Z.eqb_spec a b)
    end.

(** Known dates: the epoch, 29 February 2000, 12 July 2016, and the last
    second of a signed 32-bit [time_t]. *)
Example posix_known_dates :
  timegm (mk_tm 0 0 0 1 0 70 (-1)) = 0 /\
  timegm (mk_tm 0 0 0 29 1 100 (-1)) = 951782400 /\
  timegm (mk_tm 0 0 0 12 6 116 (-1)) = 1468281600 /\
  gmtime_r 951782400 = Some (mk_tm 0 0 0 29 1 100 0) /\
  gmtime_r (2 ^ 31 - 1) = Some (mk_tm 7 14 3 19 0 138 0) /\
  gmtime_r (-1) = Some (mk_tm 59 59 23 31 11 69 0).
Proof. repeat split. Qed.

Lemma is_leap_spec (y : Z) :
  is_leap y = true <-> y mod 4 = 0 /\ (y mod 100 <> 0 \/ y mod 400 = 0).
Proof.
  unfold is_leap.
  rewrite andb_true_iff, orb_true_iff, negb_true_iff, !Z.eqb_eq, Z.eqb_neq.
  reflexivity.
Qed.

(** The year of the era is recovered from the day of the era. *)
Lemma year_of_era (yoe doy : Z) :
  0 <= yoe <= 399 ->
  0 <= doy ->
  365 * yoe + yoe / 4 - yoe / 100 + doy
    < 365 * (yoe + 1) + (yoe + 1) / 4 - (yoe + 1) / 100 + (yoe + 1) / 400 ->
  let doe := yoe * 365 + yoe / 4 - yoe / 100 + doy in
  (doe - doe / 1460 + doe / 36524 - doe / 146096) / 365 = yoe.
Proof.
  intros Hy Hd Hlt doe. subst doe.
  Z.div_mod_to_equations; lia.
Qed.

(** Month and day are recovered from the day of the year. *)
Lemma month_day_of_year (m d : Z) :
  1 <= m <= 12 -> 1 <= d <= 31 ->
  (d <= 30 \/ (m <> 4 /\ m <> 6 /\ m <> 9 /\ m <> 11)) ->
  (m = 2 -> d <= 29) ->
  let doy := day_of_year m d in
  let mp := (5 * doy + 2) / 153 in
  0 <= doy <= 365 /\
  (doy <= 364 \/ (m = 2 /\ d = 29)) /\
  (if mp <? 10 then mp + 3 else mp - 9) = m /\
  doy - (153 * mp + 2) / 5 + 1 = d.
Proof.
  intros Hm Hd H30 H2 doy mp. subst mp doy. unfold day_of_year.
  assert (m = 1 \/ m = 2 \/ m = 3 \/ m = 4 \/ m = 5 \/ m = 6 \/ m = 7 \/
          m = 8 \/ m = 9 \/ m = 10 \/ m = 11 \/ m = 12) as Hcase by lia.
  repeat (destruct Hcase as [-> | Hcase]); try subst m;
    split_tests; try lia; Z.div_mod_to_equations; lia.
Qed.

Lemma leap_year_of_era (y era yoe : Z) :
  0 <= yoe <= 399 -> y = 400 * era + yoe + 1 -> is_leap y = true ->
  (yoe + 1) / 4 - yoe / 4 - ((yoe + 1) / 100 - yoe / 100) + (yoe + 1) / 400
  >= 1.
Proof.
  intros Hyoe -> [H4 H100]%is_leap_spec.
  Z.div_mod_to_equations; lia.
Qed.

Lemma common_year_of_era (yoe : Z) :
  0 <= yoe ->
  (yoe + 1) / 4 - yoe / 4 - ((yoe + 1) / 100 - yoe / 100) + (yoe + 1) / 400
  >= 0.
Proof. intros H. Z.div_mod_to_equations; lia. Qed.

(** What [d <= days_in_month y m] says about [d]. *)
Lemma days_in_month_bounds (y m d : Z) :
  1 <= d <= days_in_month y m ->
  1 <= d <= 31 /\
  (d <= 30 \/ (m <> 4 /\ m <> 6 /\ m <> 9 /\ m <> 11)) /\
  (m = 2 -> d <= 29) /\
  (m = 2 -> is_leap y = false -> d <= 28).
Proof.
  unfold days_in_month.
  split_tests; destruct (is_leap y); cbn [orb]; intros Hd;
    repeat split; intros; try lia; try discriminate.
Qed.

(** Every date of the calendar survives the trip to days and back. *)
Lemma civil_from_days_from_civil (y m d : Z) :
  1 <= m <= 12 -> 1 <= d <= days_in_month y m ->
  civil_from_days (days_from_civil y m d) = (y, m, d).
Proof.
  intros Hm Hd.
  unfold days_from_civil, civil_from_days.
  fold (day_of_year m d).
  set (y' := if m <=? 2 then y - 1 else y).
  set (yoe := y' mod 400). set (era := y' / 400).
  set (doy := day_of_year m d).
  assert (Hyoe : 0 <= yoe <= 399)
    by (subst yoe; pose proof (Z.mod_pos_bound y' 400); lia).
  assert (Hy' : y' = 400 * era + yoe)
    by (subst era yoe; apply Z.div_mod; lia).
  destruct (days_in_month_bounds y m d Hd) as (Hd31 & Hd30 & Hd29 & Hd28).
  destruct (month_day_of_year m d Hm Hd31 Hd30 Hd29)
    as (Hdoy & Hfeb & Hmonth & Hday).
  fold doy in Hdoy, Hfeb, Hmonth, Hday.
  assert (Hlen : 365 * yoe + yoe / 4 - yoe / 100 + doy
    < 365 * (yoe + 1) + (yoe + 1) / 4 - (yoe + 1) / 100 + (yoe + 1) / 400).
  { pose proof (common_year_of_era yoe (proj1 Hyoe)) as Hcommon.
    destruct Hfeb as [Hfeb | [-> ->]]; [lia | ].
    destruct (is_leap y) eqn:Hleap;
      [ | specialize (Hd28 eq_refl eq_refl); lia ].
    assert (Hy : y = 400 * era + yoe + 1).
    { rewrite <- Hy'. unfold y'. destruct (Z.leb_spec 2 2); lia. }
    pose proof (leap_year_of_era y era yoe Hyoe Hy Hleap). lia. }
  pose proof (year_of_era yoe doy Hyoe (proj1 Hdoy) Hlen) as Hyear.
  cbv zeta in Hyear.
  set (doe := yoe * 365 + yoe / 4 - yoe / 100 + doy) in *.
  assert (Hdoe : 0 <= doe < 146097).
  { subst doe. clearbody yoe doy. clear - Hyoe Hdoy Hlen.
    Z.div_mod_to_equations; lia. }
  replace (era * 146097 + doe - 719468 + 719468)
    with (doe + era * 146097) by ring.
  rewrite Z.div_add, Z.mod_add by lia.
  rewrite (Z.div_small doe 146097), (Z.mod_small doe 146097) by lia.
  rewrite Hyear.
  replace (doe - (365 * yoe + yoe / 4 - yoe / 100)) with doy
    by (subst doe; ring).
  rewrite Hmonth, Hday.
  f_equal. f_equal. subst y'. destruct (m <=? 2); lia.
Qed.

(** Days since the epoch of the dates from 1970 on, and of those up to
    2553. *)
Lemma days_from_civil_bounds (y m d : Z) :
  1970 <= y -> 1 <= m <= 12 -> 1 <= d <= 31 ->
  0 <= days_from_civil y m d /\
  (y <= 2553 -> days_from_civil y m d <= 213425).
Proof.
  intros Hy Hm Hd. unfold days_from_civil.
  split_tests; Z.div_mod_to_equations; lia.
Qed.

(** Seconds are split into days, hours, minutes and seconds. *)
Lemma time_of_day_split (days h mi s : Z) :
  0 <= h <= 23 -> 0 <= mi <= 59 -> 0 <= s <= 59 ->
  let time := days * 86400 + h * 3600 + mi * 60 + s in
  time / 86400 = days /\
  time mod 86400 / 3600 = h /\
  time mod 86400 / 60 mod 60 = mi /\
  time mod 86400 mod 60 = s.
Proof.
  intros Hh Hmi Hs time. subst time.
  Z.div_mod_to_equations; lia.
Qed.

End PosixFacts.

(** ** Composition followed by decomposition *)

(** The sub-second fields and the seconds survive the trip through the
    composed value whenever that value does not wrap; the date survives
    when the platform returns, for the seconds, the broken-down time they
    were composed from. *)
Lemma fields_of_stamp_value (t : Time) (s : Z) (r : tm) :
  0 <= _second t <= 59 ->
  0 <= _millisecond t <= 999 ->
  0 <= _microsecond t <= 999 ->
  0 <= _nanosecond t <= 999 ->
  0 <= s -> epoch_nanoseconds s t < 2 ^ 64 ->
  same_date r (tm_of t) ->
  let ts := Timestamp.Make (stamp_value s t) in
  Timestamp.seconds ts = s /\ fields_of r ts = t.
Proof.
  intros Hsec Hms Hus Hns Hs Hfit (Hy & Hmo & Hd & Hh & Hmi & Hse) ts.
  subst ts. rewrite stamp_value_wraps.
  unfold epoch_nanoseconds in *. rewrite u64_small by lia.
  unfold Timestamp.seconds, fields_of, Timestamp.milliseconds,
    Timestamp.microseconds, Timestamp.nanoseconds.
  cbn [Timestamp.total].
  cbn [tm_of tm_year tm_mon tm_mday tm_hour tm_min tm_sec] in *.
  rewrite Hy, Hmo, Hd, Hh, Hmi, Hse.
  rewrite Z.rem_mod_nonneg by lia.
  split.
  - Z.div_mod_to_equations; lia.
  - destruct t as [y mo d h mi se ms us ns]; cbn in *. f_equal; try lia.
    all: Z.div_mod_to_equations; lia.
Qed.

(** On any platform the trip is the identity on a tuple with seconds and
    sub-second fields in range when the composition call returns a
    non-negative number of seconds that [time_t] holds, the nanosecond
    count does not wrap, and the decomposition call maps those seconds back
    to the broken-down time they came from. *)
Lemma utc_round_trip_when_inverse (L : Libc) (t : Time) (r : tm) :
  0 <= _second t <= 59 ->
  0 <= _millisecond t <= 999 ->
  0 <= _microsecond t <= 999 ->
  0 <= _nanosecond t <= 999 ->
  0 <= timegm L (tm_of t) ->
  epoch_nanoseconds (timegm L (tm_of t)) t < 2 ^ 64 ->
  to_time_t L (timegm L (tm_of t)) = timegm L (tm_of t) ->
  gmtime_r L (timegm L (tm_of t)) = Some r ->
  same_date r (tm_of t) ->
  utc_round_trip L t = Ok t.
Proof.
  intros Hs Hms Hus Hns Hpos Hfit Hcast Hr Hsame.
  unfold utc_round_trip, utcstamp.
  destruct (Z.eqb_spec (timegm L (tm_of t)) (-1)); [lia | ].
  cbn [res_bind]. unfold UtcTime.
  destruct (fields_of_stamp_value t (timegm L (tm_of t)) r
              Hs Hms Hus Hns Hpos Hfit Hsame) as [Hsec Hfields].
  now rewrite Hsec, Hcast, Hr, Hfields.
Qed.

Lemma local_round_trip_when_inverse (L : Libc) (t : Time) (r : tm) :
  0 <= _second t <= 59 ->
  0 <= _millisecond t <= 999 ->
  0 <= _microsecond t <= 999 ->
  0 <= _nanosecond t <= 999 ->
  0 <= mktime L (tm_of t) ->
  epoch_nanoseconds (mktime L (tm_of t)) t < 2 ^ 64 ->
  to_time_t L (mktime L (tm_of t)) = mktime L (tm_of t) ->
  localtime_r L (mktime L (tm_of t)) = Some r ->
  same_date r (tm_of t) ->
  local_round_trip L t = Ok t.
Proof.
  intros Hs Hms Hus Hns Hpos Hfit Hcast Hr Hsame.
  unfold local_round_trip, localstamp.
  destruct (Z.eqb_spec (mktime L (tm_of t)) (-1)); [lia | ].
  cbn [res_bind]. unfold LocalTime.
  destruct (fields_of_stamp_value t (mktime L (tm_of t)) r
              Hs Hms Hus Hns Hpos Hfit Hsame) as [Hsec Hfields].
  now rewrite Hsec, Hcast, Hr, Hfields.
Qed.

(** On the POSIX platform [gmtime_r] inverts [timegm] at every date of the
    calendar from 1970 on. *)
Lemma posix_gmtime_timegm (t : Time) :
  valid_fields 8 t ->
  _day t <= Posix.days_in_month (_year t) (_month t) ->
  0 <= Posix.timegm (tm_of t) /\
  (_year t <= 2553 -> Posix.timegm (tm_of t) <= 18440006399) /\
  exists r : tm,
    Posix.gmtime_r (Posix.timegm (tm_of t)) = Some r /\
    same_date r (tm_of t).
Proof.
  intros Hv Hreal.
  pose proof (Hv Year) as Hy. pose proof (Hv Month) as Hmo.
  pose proof (Hv Day) as Hd. pose proof (Hv Hour) as Hh.
  pose proof (Hv Minute) as Hmi. pose proof (Hv Second) as Hs.
  unfold in_range in Hy, Hmo, Hd, Hh, Hmi, Hs.
  cbn [field_range field_value fst snd] in Hy, Hmo, Hd, Hh, Hmi, Hs.
  change (8 =? 4) with false in Hy. cbv iota in Hy.
  unfold Posix.timegm, Posix.gmtime_r.
  cbn [tm_of tm_year tm_mon tm_mday tm_hour tm_min tm_sec].
  assert (Hq : (_month t - 1) / 12 = 0) by (apply Z.div_small; lia).
  assert (Hr : (_month t - 1) mod 12 + 1 = _month t)
    by (rewrite Z.mod_small; lia).
  rewrite Hq, Hr.
  replace (_year t - 1900 + 1900 + 0) with (_year t) by ring.
  set (days := Posix.days_from_civil (_year t) (_month t) (_day t)).
  destruct (PosixFacts.days_from_civil_bounds (_year t) (_month t) (_day t))
    as [Hlo Hhi]; try lia.
  fold days in Hlo, Hhi.
  destruct (PosixFacts.time_of_day_split days (_hour t) (_minute t)
              (_second t) Hh Hmi Hs) as (Hdays & Hhour & Hmin & Hsec).
  rewrite Hdays, Hhour, Hmin, Hsec.
  unfold days at 3.
  rewrite PosixFacts.civil_from_days_from_civil by lia.
  split; [lia | ]. split; [lia | ].
  destruct (Z.leb_spec (- 2 ^ 31) (_year t - 1900)); [ | lia].
  destruct (Z.ltb_spec (_year t - 1900) (2 ^ 31)); [ | lia].
  cbn [andb]. eexists. split; [reflexivity | ].
  unfold same_date. cbn. repeat split; lia.
Qed.

(** C1, as amended.  On the POSIX platform with a 64-bit [time_t], in a
    zone at a fixed offset from UTC: a field tuple that the constructor
    accepts, whose day exists in its month, and whose composed nanosecond
    count is below [2 ^ 64] (which is so for every year up to 2553), is
    reproduced field for field by [utcstamp] followed by [UtcTime]; it is
    reproduced by [localstamp] followed by [LocalTime] when in addition
    [mktime] returns a non-negative number of seconds. *)
Theorem compose_decompose_round_trip
    (utc_offset : Z) (year month day hour minute second : Z)
    (millisecond microsecond nanosecond : Z) :
  let L := Posix.libc utc_offset in
  let t := mk_time year month day hour minute second
             millisecond microsecond nanosecond in
  Time_of_fields L year month day hour minute second
    millisecond microsecond nanosecond = Ok t ->
  day <= Posix.days_in_month year month ->
  (epoch_nanoseconds (timegm L (tm_of t)) t < 2 ^ 64 ->
     utc_round_trip L t = Ok t) /\
  (0 <= mktime L (tm_of t) ->
     epoch_nanoseconds (mktime L (tm_of t)) t < 2 ^ 64 ->
     local_round_trip L t = Ok t) /\
  (year <= 2553 -> epoch_nanoseconds (timegm L (tm_of t)) t < 2 ^ 64).
Proof.
  intros L t Hok Hreal.
  assert (Hv : valid_fields 8 t).
  { exact (proj2 (Time_of_fields_accepts_valid L year month day hour minute
                    second millisecond microsecond nanosecond t Hok)). }
  pose proof (Hv Second) as Hs. pose proof (Hv Millisecond) as Hms.
  pose proof (Hv Microsecond) as Hus. pose proof (Hv Nanosecond) as Hns.
  unfold in_range in Hs, Hms, Hus, Hns.
  cbn [field_range field_value fst snd] in Hs, Hms, Hus, Hns.
  destruct (posix_gmtime_timegm t Hv Hreal) as (Hlo & Hhi & r & Hr & Hsame).
  assert (Hsmall : forall s : Z,
             0 <= s -> epoch_nanoseconds s t < 2 ^ 64 -> to_time_t L s = s).
  { intros s Hs0 Hfit. apply to_signed_small.
    unfold epoch_nanoseconds in Hfit.
    change (2 ^ 64) with 18446744073709551616 in Hfit.
    change (2 ^ 63) with 9223372036854775808. lia. }
  refine (conj _ (conj _ _)).
  - intros Hfit.
    apply utc_round_trip_when_inverse with (r := r); auto.
  - intros Hpos Hfit.
    apply local_round_trip_when_inverse with (r := r); auto.
    change (localtime_r L (mktime L (tm_of t)))
      with (Posix.gmtime_r (Posix.timegm (tm_of t) - utc_offset + utc_offset)).
    now replace (Posix.timegm (tm_of t) - utc_offset + utc_offset)
      with (Posix.timegm (tm_of t)) by ring.
  - intros Hyear. specialize (Hhi Hyear).
    change (timegm L (tm_of t)) with (Posix.timegm (tm_of t)).
    unfold epoch_nanoseconds. cbn [t _millisecond _microsecond _nanosecond] in *.
    change (2 ^ 64) with 18446744073709551616. lia.
Qed.

Lemma compose_decompose_round_trip_witness :
  let L := Posix.libc 0 in
  let t := mk_time 2016 7 12 0 0 0 0 0 0 in
  Time_of_fields L 2016 7 12 0 0 0 0 0 0 = Ok t /\
  12 <= Posix.days_in_month 2016 7 /\
  epoch_nanoseconds (timegm L (tm_of t)) t < 2 ^ 64 /\
  utc_round_trip L t = Ok t.
Proof.
  cbv zeta.
  split; [reflexivity | ]. split; [discriminate | ].
  split; [reflexivity | ].
  pose proof (compose_decompose_round_trip 0 2016 7 12 0 0 0 0 0 0) as H.
  cbv zeta in H. destruct (H eq_refl) as [Hutc _].
  - discriminate.
  - apply Hutc. reflexivity.
Defined.

(** C1 fails as stated.  31 February 2016 passes validation, [timegm]
    carries the day into March, and the tuple comes back as 2 March 2016.
    1 January 3000 passes validation, its nanosecond count wraps modulo
    [2 ^ 64], and the tuple comes back as 13 June 2415, 00:25:26.290448384. *)
Lemma round_trip_changes_fields :
  let L := Posix.libc 0 in
  let feb31 := mk_time 2016 2 31 0 0 0 0 0 0 in
  let y3000 := mk_time 3000 1 1 0 0 0 0 0 0 in
  Time_of_fields L 2016 2 31 0 0 0 0 0 0 = Ok feb31 /\
  utc_round_trip L feb31 = Ok (mk_time 2016 3 2 0 0 0 0 0 0) /\
  utc_round_trip L feb31 <> Ok feb31 /\
  Time_of_fields L 3000 1 1 0 0 0 0 0 0 = Ok y3000 /\
  utc_round_trip L y3000 = Ok (mk_time 2415 6 13 0 25 26 290 448 384) /\
  utc_round_trip L y3000 <> Ok y3000.
Proof.
  cbv zeta. repeat split; try reflexivity; vm_compute; discriminate.
Qed.

(** ** The read/write lock *)

Module RWLockFacts.
Import RWLock.

(** The two outcomes of a clock read. *)
Lemma NanoTimestamp_available (w : World) :
  clock_failure w (clock_reads w) = None ->
  NanoTimestamp w
  = (Some (Ok (Timestamp.Make (clock w (clock_reads w)))), after_reading w).
Proof. unfold NanoTimestamp. now intros ->. Qed.

Lemma NanoTimestamp_unavailable (w : World) (message : string)
    (code : option Z) :
  clock_failure w (clock_reads w) = Some (message, code) ->
  NanoTimestamp w
  = (Some (Throw (SystemException message code)), after_failure w).
Proof. unfold NanoTimestamp. now intros ->. Qed.

Lemma TryLockRead_single (EBUSY : Z) : single_attempt (TryLockRead EBUSY).
Proof.
  intros w. unfold TryLockRead, Impl_TryLockRead, bind,
    pthread_rwlock_tryrdlock, throwex, ret.
  destruct (negb (native w (native_calls w) =? 0)
            && negb (native w (native_calls w) =? EBUSY));
    eexists; eexists; (split; [reflexivity | split; reflexivity]).
Qed.

Lemma TryLockWrite_single (EBUSY : Z) : single_attempt (TryLockWrite EBUSY).
Proof.
  intros w. unfold TryLockWrite, Impl_TryLockWrite, bind,
    pthread_rwlock_trywrlock, throwex, ret.
  destruct (negb (native w (native_calls w) =? 0)
            && negb (native w (native_calls w) =? EBUSY));
    eexists; eexists; (split; [reflexivity | split; reflexivity]).
Qed.

(** The loops of the code are the loop of the policy. *)
Lemma TryLockReadFor_loop_policy (EBUSY : Z) (fuel : nat)
    (finish : Timestamp.t) (w : World) :
  TryLockReadFor_loop EBUSY fuel finish w
  = policy_loop (TryLockRead EBUSY) fuel (Timestamp.total finish) w.
Proof.
  revert w. induction fuel as [ | fuel IH]; intros w; cbn;
    unfold bind, NanoTimestamp, Timestamp.ltb;
    (destruct (clock_failure w (clock_reads w)) as [[message code] | ];
     [reflexivity | ]);
    cbn [Timestamp.total];
    rewrite Z.geb_leb, (Z.ltb_antisym (Timestamp.total finish));
    destruct (Timestamp.total finish <=? clock w (clock_reads w));
    cbn [negb]; try reflexivity.
  destruct (TryLockRead EBUSY _) as [[[[ | ] | e] | ] w1]; try reflexivity.
  unfold Thread_Yield. apply IH.
Qed.

Lemma TryLockWriteFor_loop_policy (EBUSY : Z) (fuel : nat)
    (finish : Timestamp.t) (w : World) :
  TryLockWriteFor_loop EBUSY fuel finish w
  = policy_loop (TryLockWrite EBUSY) fuel (Timestamp.total finish) w.
Proof.
  revert w. induction fuel as [ | fuel IH]; intros w; cbn;
    unfold bind, NanoTimestamp, Timestamp.ltb;
    (destruct (clock_failure w (clock_reads w)) as [[message code] | ];
     [reflexivity | ]);
    cbn [Timestamp.total];
    rewrite Z.geb_leb, (Z.ltb_antisym (Timestamp.total finish));
    destruct (Timestamp.total finish <=? clock w (clock_reads w));
    cbn [negb]; try reflexivity.
  destruct (TryLockWrite EBUSY _) as [[[[ | ] | e] | ] w1]; try reflexivity.
  unfold Thread_Yield. apply IH.
Qed.

Lemma TryLockReadFor_policy (EBUSY : Z) (fuel : nat) (timespan : Z)
    (w : World) :
  TryLockReadFor EBUSY fuel timespan w
  = timed_acquire_policy (TryLockRead EBUSY) fuel timespan w.
Proof.
  unfold TryLockReadFor, timed_acquire_policy, bind, NanoTimestamp.
  destruct (clock_failure w (clock_reads w)) as [[message code] | ];
    [reflexivity | ].
  destruct (TryLockRead EBUSY _) as [[[[ | ] | e] | ] w1]; try reflexivity.
  apply TryLockReadFor_loop_policy.
Qed.

Lemma TryLockWriteFor_policy (EBUSY : Z) (fuel : nat) (timespan : Z)
    (w : World) :
  TryLockWriteFor EBUSY fuel timespan w
  = timed_acquire_policy (TryLockWrite EBUSY) fuel timespan w.
Proof.
  unfold TryLockWriteFor, timed_acquire_policy, bind, NanoTimestamp.
  destruct (clock_failure w (clock_reads w)) as [[message code] | ];
    [reflexivity | ].
  destruct (TryLockWrite EBUSY _) as [[[[ | ] | e] | ] w1]; try reflexivity.
  apply TryLockWriteFor_loop_policy.
Qed.

(** C2.  For every timeout, every world and every bound on the iterations,
    [TryLockReadFor] and [TryLockWriteFor] are the timed-acquire policy of
    section 4.4, run with [TryLockRead] and with [TryLockWrite]: the
    deadline is the clock reading plus the timeout, one try-lock is made at
    once and its success returned, and the loop returns false when a
    reading has reached the deadline, returns true when a try-lock
    succeeds, and yields before it retries. *)
Theorem timed_acquire_follows_policy
    (EBUSY : Z) (fuel : nat) (timespan : Z) (w : World) :
  TryLockReadFor EBUSY fuel timespan w
  = timed_acquire_policy (TryLockRead EBUSY) fuel timespan w /\
  TryLockWriteFor EBUSY fuel timespan w
  = timed_acquire_policy (TryLockWrite EBUSY) fuel timespan w.
Proof.
  split; [apply TryLockReadFor_policy | apply TryLockWriteFor_policy].
Qed.

(** *** The policy, for any try-lock that makes a single attempt *)

Section PolicyFacts.

Variable try_lock : M bool.
Hypothesis try_single : single_attempt try_lock.

(** A loop that reports failure has just read the clock at or past the
    deadline. *)
Lemma policy_loop_failure (fuel : nat) (deadline : Z) (w w' : World) :
  policy_loop try_lock fuel deadline w = (Some (Ok false), w') ->
  trace w' = EvNanoTimestamp (clock w' (pred (clock_reads w'))) :: tl (trace w')
  /\ deadline <= clock w' (pred (clock_reads w'))
  /\ clock w' = clock w.
Proof.
  revert w. induction fuel as [ | fuel IH]; intros w; cbn;
    unfold bind, NanoTimestamp;
    (destruct (clock_failure w (clock_reads w)) as [[message code] | ];
     [discriminate | ]);
    cbn [Timestamp.total];
    destruct (Z.geb_spec (clock w (clock_reads w)) deadline) as [Hge | Hlt].
  1, 3: intros [= <-]; cbn; repeat split; lia.
  - discriminate.
  - destruct (try_single (after_reading w)) as (res & ev & Heq & _).
    unfold after_reading in Heq. rewrite Heq.
    destruct res as [[ | ] | e]; try discriminate.
    unfold Thread_Yield. cbn. intros H. apply IH in H. exact H.
Qed.

(** Once a reading reaches the deadline the loop is over: [fuel] suffices
    when the reading [fuel] calls ahead has reached it. *)
Lemma policy_loop_returns (n fuel : nat) (deadline : Z) (w : World) :
  (n <= fuel)%nat ->
  deadline <= clock w (clock_reads w + n) ->
  fst (policy_loop try_lock fuel deadline w) <> None.
Proof.
  revert fuel w. induction n as [ | n IH]; intros fuel w Hfuel Hreach.
  - rewrite Nat.add_0_r in Hreach.
    destruct fuel; cbn; unfold bind, NanoTimestamp;
      (destruct (clock_failure w (clock_reads w)) as [[message code] | ];
       [discriminate | ]);
      cbn [Timestamp.total];
      destruct (Z.geb_spec (clock w (clock_reads w)) deadline);
      try lia; discriminate.
  - destruct fuel as [ | fuel]; [lia | ].
    cbn; unfold bind, NanoTimestamp.
    destruct (clock_failure w (clock_reads w)) as [[message code] | ];
      [discriminate | ].
    cbn [Timestamp.total].
    destruct (clock w (clock_reads w) >=? deadline); [discriminate | ].
    destruct (try_single (after_reading w)) as (res & ev & Heq & _).
    unfold after_reading in Heq. rewrite Heq.
    destruct res as [[ | ] | e]; try discriminate.
    unfold Thread_Yield. cbn. apply IH; [lia | ]. cbn.
    now rewrite <- Nat.add_succ_r.
Qed.

(** While the lock stays busy and the clock can be read, the loop returns
    false as soon as a reading has reached the deadline. *)
Lemma policy_loop_times_out (n fuel : nat) (deadline : Z) (w : World) :
  (forall w0 : World,
     native w0 = native w -> fst (try_lock w0) = Some (Ok false)) ->
  (n <= fuel)%nat ->
  (forall i : nat, (i <= n)%nat ->
     clock_failure w (clock_reads w + i) = None) ->
  deadline <= clock w (clock_reads w + n) ->
  fst (policy_loop try_lock fuel deadline w) = Some (Ok false).
Proof.
  revert fuel w.
  induction n as [ | n IH]; intros fuel w Hbusy Hfuel Hclock Hreach;
    pose proof (Hclock 0%nat (Nat.le_0_l _)) as Hnow;
    rewrite Nat.add_0_r in Hnow.
  - rewrite Nat.add_0_r in Hreach.
    destruct fuel; cbn; unfold bind; rewrite NanoTimestamp_available by easy;
      cbn [Timestamp.total];
      destruct (Z.geb_spec (clock w (clock_reads w)) deadline);
      try lia; reflexivity.
  - destruct fuel as [ | fuel]; [lia | ].
    cbn; unfold bind. rewrite NanoTimestamp_available by easy.
    cbn [Timestamp.total].
    destruct (clock w (clock_reads w) >=? deadline); [reflexivity | ].
    destruct (try_single (after_reading w)) as (res & ev & Heq & _).
    pose proof (Hbusy (after_reading w) eq_refl) as Hres.
    rewrite Heq in Hres |- *.
    cbn in Hres. injection Hres as ->.
    unfold Thread_Yield. cbn. apply IH; [exact Hbusy | lia | | ]; cbn.
    + intros i Hi. rewrite <- Nat.add_succ_r. apply Hclock. lia.
    + now rewrite <- Nat.add_succ_r.
Qed.

(** A timed acquire that reports failure has just read the clock at or
    past its deadline. *)
Lemma policy_failure (fuel : nat) (timeout : Z) (w w' : World) :
  timed_acquire_policy try_lock fuel timeout w = (Some (Ok false), w') ->
  let now := clock w (clock_reads w) in
  let deadline := Timestamp.total (Timestamp.add (Timestamp.Make now) timeout) in
  let reading := clock w (pred (clock_reads w')) in
  trace w' = EvNanoTimestamp reading :: tl (trace w') /\
  deadline <= reading /\
  (now + timeout < 2 ^ 64 -> timeout <= reading - now).
Proof.
  unfold timed_acquire_policy, bind, NanoTimestamp.
  destruct (clock_failure w (clock_reads w)) as [[message code] | ];
    [discriminate | ].
  destruct (try_single (after_reading w)) as (res & ev & Heq & _).
  unfold after_reading in Heq. rewrite Heq.
  destruct res as [[ | ] | e]; try discriminate.
  intros H. apply policy_loop_failure in H. cbn [clock] in H.
  destruct H as (Htrace & Hle & Hclock). rewrite Hclock in Htrace, Hle.
  cbv zeta. refine (conj Htrace (conj Hle _)).
  intros Hfit. revert Hle. unfold Timestamp.add. cbn [Timestamp.total].
  pose proof (u64_range (clock w (clock_reads w) + timeout)) as Hrange.
  destruct (Z_lt_le_dec (clock w (clock_reads w) + timeout) 0).
  - lia.
  - rewrite u64_small by lia. lia.
Qed.

(** A timed acquire times out against a lock that stays busy, when the
    clock can be read. *)
Lemma policy_times_out (n fuel : nat) (timeout : Z) (w : World) :
  (forall w0 : World,
     native w0 = native w -> fst (try_lock w0) = Some (Ok false)) ->
  (n <= fuel)%nat ->
  (forall i : nat, (i <= S n)%nat ->
     clock_failure w (clock_reads w + i) = None) ->
  Timestamp.total
    (Timestamp.add (Timestamp.Make (clock w (clock_reads w))) timeout)
  <= clock w (S (clock_reads w) + n) ->
  fst (timed_acquire_policy try_lock fuel timeout w) = Some (Ok false).
Proof.
  intros Hbusy Hfuel Hclock Hreach.
  pose proof (Hclock 0%nat (Nat.le_0_l _)) as Hnow.
  rewrite Nat.add_0_r in Hnow.
  unfold timed_acquire_policy, bind.
  rewrite NanoTimestamp_available by exact Hnow.
  destruct (try_single (after_reading w)) as (res & ev & Heq & _).
  pose proof (Hbusy (after_reading w) eq_refl) as Hres.
  rewrite Heq in Hres |- *.
  cbn in Hres. injection Hres as ->.
  apply policy_loop_times_out with (n := n);
    [exact Hbusy | exact Hfuel | | exact Hreach].
  intros i Hi. cbn. rewrite <- Nat.add_succ_r. apply Hclock. lia.
Qed.

(** A timed acquire returns or throws within [n] iterations when the
    reading [n] calls after its second has reached the deadline. *)
Lemma policy_returns (n fuel : nat) (timeout : Z) (w : World) :
  (n <= fuel)%nat ->
  Timestamp.total
    (Timestamp.add (Timestamp.Make (clock w (clock_reads w))) timeout)
  <= clock w (S (clock_reads w) + n) ->
  fst (timed_acquire_policy try_lock fuel timeout w) <> None.
Proof.
  intros Hfuel Hreach.
  unfold timed_acquire_policy, bind, NanoTimestamp.
  destruct (clock_failure w (clock_reads w)) as [[message code] | ];
    [discriminate | ].
  fold (after_reading w).
  destruct (try_single (after_reading w)) as (res & ev & Heq & _).
  rewrite Heq. destruct res as [[ | ] | e]; try discriminate.
  apply policy_loop_returns with (n := n); [exact Hfuel | exact Hreach].
Qed.

(** With the deadline not after the first reading of a clock that does not
    run backwards, a timed acquire is its single try-lock, followed by one
    more clock read when the try-lock fails: it returns false when that
    read succeeds and throws what the read throws when it does not. *)
Lemma policy_expired (fuel : nat) (timeout : Z) (w : World) :
  monotonic w ->
  Timestamp.total
    (Timestamp.add (Timestamp.Make (clock w (clock_reads w))) timeout)
  <= clock w (clock_reads w) ->
  clock_failure w (clock_reads w) = None ->
  let attempt := try_lock (after_reading w) in
  timed_acquire_policy try_lock fuel timeout w
  = match fst attempt with
    | Some (Ok false) =>
        match clock_failure w (S (clock_reads w)) with
        | None => (Some (Ok false), after_reading (snd attempt))
        | Some (message, code) =>
            (Some (Throw (SystemException message code)),
             after_failure (snd attempt))
        end
    | outcome => (outcome, snd attempt)
    end.
Proof.
  intros Hmono Hexpired Hnow. cbv zeta.
  unfold timed_acquire_policy, bind.
  rewrite NanoTimestamp_available by exact Hnow.
  destruct (try_single (after_reading w)) as (res & ev & Heq & _).
  rewrite Heq. cbn [fst snd].
  destruct res as [[ | ] | e]; try reflexivity.
  assert (Hnext : (clock w (S (clock_reads w)) >=?
                   Timestamp.total
                     (Timestamp.add
                        (Timestamp.Make (clock w (clock_reads w))) timeout))
                  = true).
  { apply Z.geb_le. pose proof (Hmono (clock_reads w) (S (clock_reads w))).
    lia. }
  destruct fuel; cbn [policy_loop]; unfold bind, NanoTimestamp;
    cbn [after_reading clock clock_failure clock_reads];
    (destruct (clock_failure w (S (clock_reads w))) as [[message code] | ];
     [reflexivity | ]);
    cbn [Timestamp.total]; rewrite Hnext; reflexivity.
Qed.

(** What an expired timed acquire does, in terms of its try-lock. *)
Lemma policy_expired_run (fuel : nat) (timeout : Z) (w : World) :
  monotonic w ->
  Timestamp.total
    (Timestamp.add (Timestamp.Make (clock w (clock_reads w))) timeout)
  <= clock w (clock_reads w) ->
  clock_failure w (clock_reads w) = None ->
  let attempt := try_lock (after_reading w) in
  let run := timed_acquire_policy try_lock fuel timeout w in
  (exists new : list Event,
     trace (snd run) = (new ++ trace w)%list /\
     attempts new = 1%nat /\ yields new = 0%nat) /\
  (fst attempt <> Some (Ok false) \/
   clock_failure w (S (clock_reads w)) = None ->
   fst run = fst attempt) /\
  (forall (message : string) (code : option Z),
     fst attempt = Some (Ok false) ->
     clock_failure w (S (clock_reads w)) = Some (message, code) ->
     fst run = Some (Throw (SystemException message code))).
Proof.
  intros Hmono Hexpired Hnow. cbv zeta.
  rewrite (policy_expired fuel timeout w Hmono Hexpired Hnow).
  destruct (try_single (after_reading w)) as (res & ev & Heq & Htry & Hyield).
  rewrite Heq. cbn [fst snd].
  assert (Hcount : forall first : Event,
            is_try first = false -> is_yield first = false ->
            attempts [first; ev; EvNanoTimestamp (clock w (clock_reads w))]
            = 1%nat /\
            yields [first; ev; EvNanoTimestamp (clock w (clock_reads w))]
            = 0%nat).
  { intros first Hf Hf'. unfold attempts, yields. cbn [filter is_try is_yield].
    now rewrite Hf, Hf', Htry, Hyield. }
  assert (Hcount' :
            attempts [ev; EvNanoTimestamp (clock w (clock_reads w))] = 1%nat /\
            yields [ev; EvNanoTimestamp (clock w (clock_reads w))] = 0%nat).
  { unfold attempts, yields. cbn [filter is_try is_yield].
    now rewrite Htry, Hyield. }
  destruct res as [[ | ] | e].
  - split; [ | split; [reflexivity | discriminate]].
    now exists [ev; EvNanoTimestamp (clock w (clock_reads w))].
  - destruct (clock_failure w (S (clock_reads w))) as [[message code] | ]
      eqn:Hsecond; cbn [fst snd].
    + split; [ | split].
      * exists [EvNanoTimestampFails; ev;
                EvNanoTimestamp (clock w (clock_reads w))].
        split; [reflexivity | now apply Hcount].
      * intros [H | H]; [now elim H | discriminate].
      * now intros m c _ [= <- <-].
    + split; [ | split; [reflexivity | discriminate]].
      exists [EvNanoTimestamp (clock w (S (clock_reads w))); ev;
              EvNanoTimestamp (clock w (clock_reads w))].
      split; [reflexivity | now apply Hcount].
  - split; [ | split; [reflexivity | discriminate]].
    now exists [ev; EvNanoTimestamp (clock w (clock_reads w))].
Qed.

(** A timed acquire whose first clock read fails throws what the read
    throws, before any try-lock. *)
Lemma policy_clock_unavailable (fuel : nat) (timeout : Z) (w : World)
    (message : string) (code : option Z) :
  clock_failure w (clock_reads w) = Some (message, code) ->
  timed_acquire_policy try_lock fuel timeout w
  = (Some (Throw (SystemException message code)), after_failure w).
Proof.
  intros H. unfold timed_acquire_policy, bind.
  now rewrite (NanoTimestamp_unavailable w message code H).
Qed.

End PolicyFacts.

(** *** The try-locks *)

(** The outcome of the two try-locks, from the result of the native
    call. *)
Lemma TryLockRead_cases (EBUSY : Z) (w : World) :
  let result := native w (native_calls w) in
  TryLockRead EBUSY w
  = (Some (if (result =? 0) || (result =? EBUSY) then Ok (result =? 0)
           else Throw (SystemException "Failed to try lock for read!"
                         (Some result))),
     mk_world (clock w) (clock_failure w) (native w)
       (clock_reads w) (S (native_calls w))
       (EvTryRdLock result :: trace w)).
Proof.
  cbv zeta. unfold TryLockRead, Impl_TryLockRead, bind,
    pthread_rwlock_tryrdlock, throwex, ret.
  destruct (native w (native_calls w) =? 0),
    (native w (native_calls w) =? EBUSY); reflexivity.
Qed.

Lemma TryLockWrite_cases (EBUSY : Z) (w : World) :
  let result := native w (native_calls w) in
  TryLockWrite EBUSY w
  = (Some (if (result =? 0) || (result =? EBUSY) then Ok (result =? 0)
           else Throw (SystemException "Failed to try lock for write!"
                         (Some result))),
     mk_world (clock w) (clock_failure w) (native w)
       (clock_reads w) (S (native_calls w))
       (EvTryWrLock result :: trace w)).
Proof.
  cbv zeta. unfold TryLockWrite, Impl_TryLockWrite, bind,
    pthread_rwlock_trywrlock, throwex, ret.
  destruct (native w (native_calls w) =? 0),
    (native w (native_calls w) =? EBUSY); reflexivity.
Qed.

(** C5.  [TryLockRead] makes one call of [pthread_rwlock_tryrdlock] and
    returns true exactly when the call returns 0; when the call returns
    [EBUSY] it returns false and does not throw; for every other result it
    throws a [SystemException] carrying that result.  [TryLockWrite] does
    the same with [pthread_rwlock_trywrlock]. *)
Theorem TryLock_outcomes (EBUSY : Z) (w : World) :
  EBUSY <> 0 ->
  let result := native w (native_calls w) in
  ((fst (TryLockRead EBUSY w) = Some (Ok true) <-> result = 0) /\
   (result = EBUSY -> fst (TryLockRead EBUSY w) = Some (Ok false)) /\
   (result <> 0 -> result <> EBUSY ->
      fst (TryLockRead EBUSY w)
      = Some (Throw (SystemException "Failed to try lock for read!"
                       (Some result)))) /\
   trace (snd (TryLockRead EBUSY w)) = EvTryRdLock result :: trace w) /\
  ((fst (TryLockWrite EBUSY w) = Some (Ok true) <-> result = 0) /\
   (result = EBUSY -> fst (TryLockWrite EBUSY w) = Some (Ok false)) /\
   (result <> 0 -> result <> EBUSY ->
      fst (TryLockWrite EBUSY w)
      = Some (Throw (SystemException "Failed to try lock for write!"
                       (Some result)))) /\
   trace (snd (TryLockWrite EBUSY w)) = EvTryWrLock result :: trace w).
Proof.
  intros Hbusy result.
  pose proof (TryLockRead_cases EBUSY w) as Hr.
  pose proof (TryLockWrite_cases EBUSY w) as Hw.
  cbv zeta in Hr, Hw. fold result in Hr, Hw. rewrite Hr, Hw. cbn [fst snd trace].
  destruct (Z.eqb_spec result 0) as [H0 | H0];
    destruct (Z.eqb_spec result EBUSY) as [Hb | Hb]; cbn [orb];
    repeat split; intros; try reflexivity; try congruence; try discriminate.
Qed.

Lemma TryLock_outcomes_witness :
  16 <> 0 /\
  fst (TryLockRead 16 (scripted [] [16])) = Some (Ok false).
Proof.
  split; [discriminate | ].
  apply (TryLock_outcomes 16 (scripted [] [16])); [discriminate | reflexivity].
Defined.

(** *** The timed acquires *)

Lemma TryLockRead_busy (EBUSY : Z) (w : World) :
  EBUSY <> 0 -> (forall i : nat, native w i = EBUSY) ->
  forall w0 : World,
    native w0 = native w -> fst (TryLockRead EBUSY w0) = Some (Ok false).
Proof.
  intros Hbusy Hheld w0 Hnative. rewrite TryLockRead_cases. cbn [fst].
  rewrite Hnative, Hheld, Z.eqb_refl, orb_true_r.
  now destruct (Z.eqb_spec EBUSY 0).
Qed.

Lemma TryLockWrite_busy (EBUSY : Z) (w : World) :
  EBUSY <> 0 -> (forall i : nat, native w i = EBUSY) ->
  forall w0 : World,
    native w0 = native w -> fst (TryLockWrite EBUSY w0) = Some (Ok false).
Proof.
  intros Hbusy Hheld w0 Hnative. rewrite TryLockWrite_cases. cbn [fst].
  rewrite Hnative, Hheld, Z.eqb_refl, orb_true_r.
  now destruct (Z.eqb_spec EBUSY 0).
Qed.

(** C3.  Whenever [TryLockWriteFor] or [TryLockReadFor] returns false, the
    last thing it did was to read the clock, and that reading is at or past
    the deadline it computed on entry; when the deadline did not wrap past
    [2 ^ 64], at least the timeout lies between the first reading and that
    one.  And it does return false against a lock that stays busy, once a
    reading has reached the deadline, the clock having been read without
    failure until then. *)
Theorem timed_acquire_failure_at_deadline
    (EBUSY : Z) (fuel : nat) (timespan : Z) (w : World) :
  let now := clock w (clock_reads w) in
  let finish :=
    Timestamp.total (Timestamp.add (Timestamp.Make now) timespan) in
  (forall w' : World,
     TryLockWriteFor EBUSY fuel timespan w = (Some (Ok false), w') \/
     TryLockReadFor EBUSY fuel timespan w = (Some (Ok false), w') ->
     let reading := clock w (pred (clock_reads w')) in
     trace w' = EvNanoTimestamp reading :: tl (trace w') /\
     finish <= reading /\
     (now + timespan < 2 ^ 64 -> timespan <= reading - now)) /\
  (forall n : nat,
     EBUSY <> 0 -> (forall i : nat, native w i = EBUSY) ->
     (n <= fuel)%nat ->
     (forall i : nat, (i <= S n)%nat ->
        clock_failure w (clock_reads w + i) = None) ->
     finish <= clock w (S (clock_reads w) + n) ->
     fst (TryLockWriteFor EBUSY fuel timespan w) = Some (Ok false) /\
     fst (TryLockReadFor EBUSY fuel timespan w) = Some (Ok false)).
Proof.
  intros now finish. split.
  - intros w' [H | H].
    + rewrite TryLockWriteFor_policy in H.
      exact (policy_failure _ (TryLockWrite_single EBUSY) _ _ _ _ H).
    + rewrite TryLockReadFor_policy in H.
      exact (policy_failure _ (TryLockRead_single EBUSY) _ _ _ _ H).
  - intros n Hbusy Hheld Hfuel Hclock Hreach. split.
    + rewrite TryLockWriteFor_policy.
      apply policy_times_out with (n := n);
        [ apply TryLockWrite_single
        | now apply TryLockWrite_busy
        | exact Hfuel
        | exact Hclock
        | exact Hreach ].
    + rewrite TryLockReadFor_policy.
      apply policy_times_out with (n := n);
        [ apply TryLockRead_single
        | now apply TryLockRead_busy
        | exact Hfuel
        | exact Hclock
        | exact Hreach ].
Qed.

Lemma timed_acquire_failure_at_deadline_witness :
  let w := scripted [100; 120; 140; 160] [] in
  16 <> 0 /\
  fst (TryLockWriteFor 16 5 50 w) = Some (Ok false) /\
  100 + 50 <= clock w (pred (clock_reads (snd (TryLockWriteFor 16 5 50 w)))).
Proof.
  cbv zeta.
  pose proof (timed_acquire_failure_at_deadline 16 5 50
                (scripted [100; 120; 140; 160] [])) as H.
  cbv zeta in H. destruct H as [Hfail Htimeout].
  split; [discriminate | ]. split.
  - apply (Htimeout 2%nat).
    + discriminate.
    + intros i. destruct i; reflexivity.
    + apply Nat.leb_le. reflexivity.
    + intros i Hi. reflexivity.
    + vm_compute. discriminate.
  - destruct (Hfail (snd (TryLockWriteFor 16 5 50
                            (scripted [100; 120; 140; 160] []))))
      as (_ & Hle & _).
    + left. reflexivity.
    + exact Hle.
Defined.

Lemma scripted_monotonic_constant (reading : Z) (results : list Z) :
  monotonic (scripted [reading] results).
Proof.
  intros i j _. cbn.
  destruct i as [ | i]; [ | destruct i]; destruct j as [ | j];
    try destruct j; lia.
Qed.

(** C9, as amended.  When the deadline computed on entry is not after the
    first clock reading, as it is for a zero timeout and for a negative
    timeout that does not reach below the clock's origin, and the clock
    does not run backwards, a timed acquire whose first clock read succeeds
    makes one native try-lock call and no yield, and [TryLockReadFor]
    returns or throws what its one [TryLockRead] does, unless the try-lock
    returns false and the clock read that follows it fails: then it throws
    the exception of that read.  The same holds of [TryLockWriteFor] and
    [TryLockWrite].  When the first clock read fails, both throw its
    exception and make no try-lock call. *)
Theorem timed_acquire_expired
    (EBUSY : Z) (fuel : nat) (timespan : Z) (w : World) :
  let now := clock w (clock_reads w) in
  let finish :=
    Timestamp.total (Timestamp.add (Timestamp.Make now) timespan) in
  monotonic w ->
  (timespan <= 0 /\ 0 <= now + timespan /\ now < 2 ^ 64) \/ finish <= now ->
  (clock_failure w (clock_reads w) = None ->
   ((exists new : list Event,
       trace (snd (TryLockReadFor EBUSY fuel timespan w))
       = (new ++ trace w)%list /\
       attempts new = 1%nat /\ yields new = 0%nat) /\
    (fst (TryLockRead EBUSY (after_reading w)) <> Some (Ok false) \/
     clock_failure w (S (clock_reads w)) = None ->
     fst (TryLockReadFor EBUSY fuel timespan w)
     = fst (TryLockRead EBUSY (after_reading w))) /\
    (forall (message : string) (code : option Z),
       fst (TryLockRead EBUSY (after_reading w)) = Some (Ok false) ->
       clock_failure w (S (clock_reads w)) = Some (message, code) ->
       fst (TryLockReadFor EBUSY fuel timespan w)
       = Some (Throw (SystemException message code)))) /\
   ((exists new : list Event,
       trace (snd (TryLockWriteFor EBUSY fuel timespan w))
       = (new ++ trace w)%list /\
       attempts new = 1%nat /\ yields new = 0%nat) /\
    (fst (TryLockWrite EBUSY (after_reading w)) <> Some (Ok false) \/
     clock_failure w (S (clock_reads w)) = None ->
     fst (TryLockWriteFor EBUSY fuel timespan w)
     = fst (TryLockWrite EBUSY (after_reading w))) /\
    (forall (message : string) (code : option Z),
       fst (TryLockWrite EBUSY (after_reading w)) = Some (Ok false) ->
       clock_failure w (S (clock_reads w)) = Some (message, code) ->
       fst (TryLockWriteFor EBUSY fuel timespan w)
       = Some (Throw (SystemException message code))))) /\
  (forall (message : string) (code : option Z),
     clock_failure w (clock_reads w) = Some (message, code) ->
     TryLockReadFor EBUSY fuel timespan w
     = (Some (Throw (SystemException message code)), after_failure w) /\
     TryLockWriteFor EBUSY fuel timespan w
     = (Some (Throw (SystemException message code)), after_failure w)).
Proof.
  intros now finish Hmono Hcase.
  assert (Hexpired : finish <= now).
  { destruct Hcase as [(Hneg & Hpos & Hnow) | H]; [ | exact H].
    unfold finish, Timestamp.add. cbn [Timestamp.total].
    rewrite u64_small; lia. }
  rewrite !TryLockReadFor_policy, !TryLockWriteFor_policy.
  split.
  - intros Hfirst. split.
    + exact (policy_expired_run _ (TryLockRead_single EBUSY) fuel timespan w
               Hmono Hexpired Hfirst).
    + exact (policy_expired_run _ (TryLockWrite_single EBUSY) fuel timespan w
               Hmono Hexpired Hfirst).
  - intros message code Hfirst. split; now apply policy_clock_unavailable.
Qed.

Lemma timed_acquire_expired_witness :
  let w := scripted [100] [16] in
  monotonic w /\
  (-50 <= 0 /\ 0 <= 100 + -50 /\ 100 < 2 ^ 64) /\
  clock_failure w (clock_reads w) = None /\
  clock_failure w (S (clock_reads w)) = None /\
  fst (TryLockReadFor 16 7 (-50) w) = fst (TryLockRead 16 (after_reading w)).
Proof.
  cbv zeta. split; [apply scripted_monotonic_constant | ].
  split; [split; [lia | split; [lia | reflexivity]] | ].
  split; [reflexivity | ]. split; [reflexivity | ].
  pose proof (timed_acquire_expired 16 7 (-50) (scripted [100] [16])) as H.
  cbv zeta in H. destruct H as [H _].
  - apply scripted_monotonic_constant.
  - left. cbn. split; [lia | split; [lia | reflexivity]].
  - destruct (H eq_refl) as [(_ & Hsame & _) _].
    apply Hsame. right. reflexivity.
Defined.

(** C9 fails as stated.  A timed acquire entered at the clock reading 100
    with a timeout of -200 computes its deadline as [100 - 200] in unsigned
    64-bit arithmetic, which is [2 ^ 64 - 100] and after every reading of
    the clock.  Against a lock that is busy twice and then free it makes
    three try-lock calls, yields once and returns true, where the plain
    try-lock returns false. *)
Lemma negative_timeout_retries :
  let w := scripted [100; 120; 140] [16; 16; 0] in
  -200 <= 0 /\
  monotonic w /\
  Timestamp.add (Timestamp.Make 100) (-200)
  = Timestamp.Make 18446744073709551516 /\
  fst (TryLockRead 16 (after_reading w)) = Some (Ok false) /\
  TryLockReadFor 16 5 (-200) w
  = (Some (Ok true),
     mk_world (clock w) (clock_failure w) (native w) 3 3
       [EvTryRdLock 0; EvNanoTimestamp 140; EvYield; EvTryRdLock 16;
        EvNanoTimestamp 120; EvTryRdLock 16; EvNanoTimestamp 100]).
Proof.
  cbv zeta. split; [lia | ]. split; [ | repeat split; reflexivity].
  intros i j Hij. cbn.
  destruct i as [ | [ | [ | [ | i]]]]; destruct j as [ | [ | [ | [ | j]]]];
    cbn; lia.
Qed.

(** The timed acquires are over once a reading has reached the deadline. *)
Lemma timed_acquire_returns (EBUSY : Z) (n fuel : nat) (timespan : Z)
    (w : World) :
  (n <= fuel)%nat ->
  Timestamp.total
    (Timestamp.add (Timestamp.Make (clock w (clock_reads w))) timespan)
  <= clock w (S (clock_reads w) + n) ->
  fst (TryLockReadFor EBUSY fuel timespan w) <> None /\
  fst (TryLockWriteFor EBUSY fuel timespan w) <> None.
Proof.
  intros Hfuel Hreach.
  rewrite TryLockReadFor_policy, TryLockWriteFor_policy. split.
  - exact (policy_returns _ (TryLockRead_single EBUSY) n fuel timespan w
             Hfuel Hreach).
  - exact (policy_returns _ (TryLockWrite_single EBUSY) n fuel timespan w
             Hfuel Hreach).
Qed.

End RWLockFacts.

(** ** Arithmetic on timestamps *)

Lemma stamp_value_congruent (s : Z) (t : Time) :
  Timestamp.wf (Timestamp.Make (stamp_value s t)) /\
  exists k : Z, epoch_nanoseconds s t = stamp_value s t + k * 2 ^ 64.
Proof.
  rewrite stamp_value_wraps. split; [apply u64_range | ].
  exists (epoch_nanoseconds s t / 2 ^ 64). unfold u64.
  pose proof (Z.div_mod (epoch_nanoseconds s t) (2 ^ 64)). lia.
Qed.

(** C6, as amended.  The epoch-nanosecond computation of calendar
    composition is unchecked unsigned 64-bit arithmetic.  On every platform
    and for every calendar time, [utcstamp] and [localstamp] fail only with
    the [SystemException] of a platform result of -1, and otherwise return
    a 64-bit timestamp that differs from the exact nanosecond count by a
    multiple of [2 ^ 64]; the timestamp is the exact count just when that
    count lies in the range of an unsigned 64-bit integer. *)
Theorem timestamp_arithmetic_unchecked :
  (forall (L : Libc) (t : Time),
     composed_unchecked (utcstamp L t) (timegm L (tm_of t)) t
       "Cannot convert date & time to UTC timestamp!" /\
     composed_unchecked (localstamp L t) (mktime L (tm_of t)) t
       "Cannot convert date & time to local timestamp!") /\
  (forall (L : Libc) (t : Time) (ts : Timestamp.t),
     (utcstamp L t = Ok ts ->
      (Timestamp.total ts = epoch_nanoseconds (timegm L (tm_of t)) t <->
       0 <= epoch_nanoseconds (timegm L (tm_of t)) t < 2 ^ 64)) /\
     (localstamp L t = Ok ts ->
      (Timestamp.total ts = epoch_nanoseconds (mktime L (tm_of t)) t <->
       0 <= epoch_nanoseconds (mktime L (tm_of t)) t < 2 ^ 64))).
Proof.
  split.
  - intros L t. unfold composed_unchecked, utcstamp, localstamp. split.
    + destruct (Z.eqb_spec (timegm L (tm_of t)) (-1)) as [H | H].
      * left. now split.
      * right. eexists. split; [reflexivity | ]. apply stamp_value_congruent.
    + destruct (Z.eqb_spec (mktime L (tm_of t)) (-1)) as [H | H].
      * left. now split.
      * right. eexists. split; [reflexivity | ]. apply stamp_value_congruent.
  - intros L t ts. unfold utcstamp, localstamp. split.
    + destruct (timegm L (tm_of t) =? -1); [discriminate | ].
      intros [= <-]. cbn [Timestamp.total]. rewrite stamp_value_wraps.
      pose proof (u64_range (epoch_nanoseconds (timegm L (tm_of t)) t)).
      split; [intros <-; assumption | apply u64_small].
    + destruct (mktime L (tm_of t) =? -1); [discriminate | ].
      intros [= <-]. cbn [Timestamp.total]. rewrite stamp_value_wraps.
      pose proof (u64_range (epoch_nanoseconds (mktime L (tm_of t)) t)).
      split; [intros <-; assumption | apply u64_small].
Qed.

Lemma timestamp_arithmetic_unchecked_witness :
  let L := Posix.libc 0 in
  let t := mk_time 2016 7 12 0 0 0 123 456 789 in
  utcstamp L t = Ok (Timestamp.Make 1468281600123456789) /\
  0 <= epoch_nanoseconds (timegm L (tm_of t)) t < 2 ^ 64.
Proof.
  cbv zeta. split; [reflexivity | ].
  destruct timestamp_arithmetic_unchecked as (_ & H).
  destruct (H (Posix.libc 0) (mk_time 2016 7 12 0 0 0 123 456 789)
              (Timestamp.Make 1468281600123456789)) as [Hutc _].
  apply (Hutc eq_refl). reflexivity.
Defined.

(** C6 fails as stated.  31 December 3000, 23:59:59.999999999 passes
    validation; its exact nanosecond count, 32535215999999999999, is not
    below [2 ^ 64]; composition returns the count less [2 ^ 64] and throws
    nothing. *)
Lemma arithmetic_wraps_silently :
  let L := Posix.libc 0 in
  let t := mk_time 3000 12 31 23 59 59 999 999 999 in
  Time_of_fields L 3000 12 31 23 59 59 999 999 999 = Ok t /\
  epoch_nanoseconds (timegm L (tm_of t)) t = 32535215999999999999 /\
  2 ^ 64 <= epoch_nanoseconds (timegm L (tm_of t)) t /\
  utcstamp L t = Ok (Timestamp.Make 14088471926290448383) /\
  14088471926290448383 = 32535215999999999999 - 2 ^ 64.
Proof.
  cbv zeta. repeat split; try reflexivity. vm_compute. discriminate.
Qed.

(** * Further properties of the calendar conversions *)

(** ** The POSIX calendar: days to dates and back *)

Module PosixDays.
Import Posix.

(** Year and day of the year of a day of the era are in range, and the day
    falls within the length of that year. *)
Lemma year_and_day_of_era (doe : Z) :
  0 <= doe < 146097 ->
  let yoe := (doe - doe / 1460 + doe / 36524 - doe / 146096) / 365 in
  let doy := doe - (365 * yoe + yoe / 4 - yoe / 100) in
  0 <= yoe <= 399 /\ 0 <= doy <= 365 /\
  doy < 365 + ((yoe + 1) / 4 - yoe / 4)
        - ((yoe + 1) / 100 - yoe / 100) + (yoe + 1) / 400.
Proof.
  intros H yoe doy. subst doy yoe.
  Z.div_mod_to_equations; lia.
Qed.

(** Month and day of a day of the year are in range. *)
Lemma month_and_day_of_year (doy : Z) :
  0 <= doy <= 365 ->
  let mp := (5 * doy + 2) / 153 in
  let d := doy - (153 * mp + 2) / 5 + 1 in
  0 <= mp <= 11 /\ 1 <= d <= 31 /\
  (d <= 30 \/ (mp <> 1 /\ mp <> 3 /\ mp <> 6 /\ mp <> 8)) /\
  (mp = 11 -> d <= 29 /\ (d = 29 -> doy = 365)).
Proof.
  intros H mp d. subst d mp.
  Z.div_mod_to_equations; lia.
Qed.

(** A year of the era that has 366 days is a leap year. *)
Lemma long_year_of_era (y era yoe : Z) :
  0 <= yoe <= 399 -> y = 400 * era + yoe + 1 ->
  (yoe + 1) / 4 - yoe / 4 - ((yoe + 1) / 100 - yoe / 100) + (yoe + 1) / 400
  >= 1 ->
  is_leap y = true.
Proof.
  intros Hyoe -> Hlong. apply PosixFacts.is_leap_spec.
  Z.div_mod_to_equations; lia.
Qed.

(** Every day count is the day count of the date it decomposes to, and
    that date exists in the calendar. *)
Lemma days_from_civil_from_days (z : Z) :
  let '(y, m, d) := civil_from_days z in
  days_from_civil y m d = z /\
  1 <= m <= 12 /\ 1 <= d <= days_in_month y m.
Proof.
  unfold civil_from_days.
  set (z' := z + 719468).
  set (era := z' / 146097). set (doe := z' mod 146097).
  assert (Hdoe : 0 <= doe < 146097) by (apply Z.mod_pos_bound; lia).
  assert (Hz : z' = 146097 * era + doe) by (apply Z.div_mod; lia).
  destruct (year_and_day_of_era doe Hdoe) as (Hyoe & Hdoy & Hlen).
  cbv zeta in Hyoe, Hdoy, Hlen.
  set (yoe := (doe - doe / 1460 + doe / 36524 - doe / 146096) / 365) in *.
  set (doy := doe - (365 * yoe + yoe / 4 - yoe / 100)) in *.
  destruct (month_and_day_of_year doy Hdoy) as (Hmp & Hd & H30 & Hfeb).
  cbv zeta in Hmp, Hd, H30, Hfeb.
  set (mp := (5 * doy + 2) / 153) in *.
  set (d := doy - (153 * mp + 2) / 5 + 1) in *.
  assert (Hera : (yoe + era * 400) / 400 = era)
    by (rewrite Z.div_add by lia; rewrite Z.div_small; lia).
  assert (Hmod : (yoe + era * 400) mod 400 = yoe)
    by (rewrite Z.mod_add by lia; apply Z.mod_small; lia).
  unfold days_from_civil, days_in_month.
  destruct (Z.ltb_spec mp 10) as [Hlt | Hge].
  - destruct (Z.leb_spec (mp + 3) 2); [lia | ].
    replace (mp + 3 - 3) with mp by ring.
    rewrite Hera, Hmod.
    split; [subst d doy z'; lia | ]. split; [lia | ].
    destruct (Z.eqb_spec (mp + 3) 2); [lia | ].
    destruct (Z.eqb_spec (mp + 3) 4), (Z.eqb_spec (mp + 3) 6),
      (Z.eqb_spec (mp + 3) 9), (Z.eqb_spec (mp + 3) 11); cbn [orb]; lia.
  - destruct (Z.leb_spec (mp - 9) 2); [ | lia].
    replace (mp - 9 + 9) with mp by ring.
    replace (yoe + era * 400 + 1 - 1) with (yoe + era * 400) by ring.
    rewrite Hera, Hmod.
    split; [subst d doy z'; lia | ]. split; [lia | ].
    destruct (Z.eqb_spec (mp - 9) 2) as [Hm | Hm].
    + assert (Hmp11 : mp = 11) by lia. destruct (Hfeb Hmp11) as [H29 Hlast].
      destruct (is_leap (yoe + era * 400 + 1)) eqn:Hleap; [lia | ].
      assert (d <> 29); [ | lia].
      intros Hd29. specialize (Hlast Hd29).
      rewrite (long_year_of_era (yoe + era * 400 + 1) era yoe) in Hleap;
        [discriminate | lia | ring | lia].
    + destruct (Z.eqb_spec (mp - 9) 4), (Z.eqb_spec (mp - 9) 6),
        (Z.eqb_spec (mp - 9) 9), (Z.eqb_spec (mp - 9) 11); cbn [orb]; lia.
Qed.

(** Dates before 1970 have negative day counts, dates from 2555 on have
    day counts past the last day a 64-bit nanosecond count reaches. *)
Lemma days_from_civil_outside (y m d : Z) :
  1 <= m <= 12 -> 1 <= d <= 31 ->
  (y <= 1969 -> days_from_civil y m d < 0) /\
  (y <= 1968 -> days_from_civil y m d < - 1) /\
  (2555 <= y -> 213504 < days_from_civil y m d).
Proof.
  intros Hm Hd. unfold days_from_civil.
  PosixFacts.split_tests; Z.div_mod_to_equations; lia.
Qed.

(** The year of a day count within ten thousand years of the epoch. *)
Lemma civil_from_days_year (z : Z) :
  - 719468 <= z <= 3000000 ->
  0 <= fst (fst (civil_from_days z)) <= 10800.
Proof.
  intros Hz. unfold civil_from_days. cbn [fst].
  set (z' := z + 719468).
  assert (Hdoe : 0 <= z' mod 146097 < 146097) by (apply Z.mod_pos_bound; lia).
  destruct (year_and_day_of_era _ Hdoe) as (Hyoe & _ & _). cbv zeta in Hyoe.
  assert (0 <= z' / 146097 <= 26)
    by (subst z'; split;
        [apply Z.div_pos; lia | apply Z.div_le_upper_bound; lia]).
  destruct (_ <=? 2); lia.
Qed.

(** [gmtime_r] decomposes every count of seconds within ten thousand years
    of the epoch to a broken-down time in the POSIX ranges, whose date
    exists in the calendar and which [timegm] takes back to the count. *)
Lemma timegm_gmtime_r (time : Z) :
  - 62000000000 <= time <= 259000000000 ->
  exists r : tm,
    gmtime_r time = Some r /\ timegm r = time /\
    0 <= tm_sec r <= 59 /\ 0 <= tm_min r <= 59 /\ 0 <= tm_hour r <= 23 /\
    0 <= tm_mon r <= 11 /\
    1 <= tm_mday r <= days_in_month (tm_year r + 1900) (tm_mon r + 1) /\
    civil_from_days (time / 86400)
    = (tm_year r + 1900, tm_mon r + 1, tm_mday r).
Proof.
  intros Htime. unfold gmtime_r.
  pose proof (days_from_civil_from_days (time / 86400)) as Hback.
  pose proof (civil_from_days_year (time / 86400)) as Hyear.
  destruct (civil_from_days (time / 86400)) as [[y m] d].
  cbn [fst] in Hyear. destruct Hback as (Hdays & Hm & Hd).
  assert (Hy : 0 <= y <= 10800).
  { apply Hyear. split.
    - apply Z.div_le_lower_bound; lia.
    - apply Z.div_le_upper_bound; lia. }
  destruct (Z.leb_spec (- 2 ^ 31) (y - 1900)); [ | lia].
  destruct (Z.ltb_spec (y - 1900) (2 ^ 31)); [ | lia].
  cbn [andb]. eexists. split; [reflexivity | ].
  unfold timegm. cbn [tm_sec tm_min tm_hour tm_mday tm_mon tm_year].
  replace (y - 1900 + 1900) with y by ring.
  replace (m - 1 + 1) with m by ring.
  assert (Hq : (m - 1) / 12 = 0) by (apply Z.div_small; lia).
  assert (Hr : (m - 1) mod 12 + 1 = m) by (rewrite Z.mod_small; lia).
  rewrite Hq, Hr. replace (y + 0) with y by ring. rewrite Hdays.
  pose proof (Z.mod_pos_bound time 86400).
  repeat split; try lia; Z.div_mod_to_equations; lia.
Qed.

End PosixDays.

(** ** Decomposition on the POSIX platform *)

(** The seconds a decomposing constructor hands to [gmtime_r]: those of the
    timestamp, moved by the zone offset for [LocalTime]. *)
Lemma posix_platform_call (utc_offset : Z) (k : Decomposer)
    (ts : Timestamp.t) :
  Timestamp.wf ts ->
  platform_call (Posix.libc utc_offset) k
    (to_time_t (Posix.libc utc_offset) (Timestamp.seconds ts))
  = Posix.gmtime_r
      (Timestamp.seconds ts
       + match k with ByLocalTime => utc_offset | _ => 0 end) /\
  0 <= Timestamp.seconds ts <= 18446744073.
Proof.
  intros [Hlo Hhi]. change (2 ^ 64) with 18446744073709551616 in Hhi.
  assert (Hs : 0 <= Timestamp.seconds ts <= 18446744073).
  { unfold Timestamp.seconds. split.
    - apply Z.div_pos; lia.
    - assert (Timestamp.total ts / 1000000000 < 18446744074)
        by (apply Z.div_lt_upper_bound; lia).
      lia. }
  split; [ | exact Hs].
  unfold to_time_t. cbn [sizeof_time_t Posix.libc].
  rewrite to_signed_small
    by (change (2 ^ 63) with 9223372036854775808; lia).
  destruct k; cbn [platform_call gmtime_r localtime_r Posix.libc];
    rewrite ?Z.add_0_r; reflexivity.
Qed.

(** What the decomposing constructors return on the POSIX platform. *)
Lemma posix_decompose (utc_offset : Z) (k : Decomposer) (ts : Timestamp.t) :
  Timestamp.wf ts ->
  - 86400 <= utc_offset <= 86400 ->
  exists r : tm,
    decompose (Posix.libc utc_offset) k ts = Ok (fields_of r ts) /\
    Posix.timegm r
    = Timestamp.seconds ts
      + match k with ByLocalTime => utc_offset | _ => 0 end /\
    0 <= tm_sec r <= 59 /\ 0 <= tm_min r <= 59 /\ 0 <= tm_hour r <= 23 /\
    0 <= tm_mon r <= 11 /\
    1 <= tm_mday r
      <= Posix.days_in_month (tm_year r + 1900) (tm_mon r + 1) /\
    Posix.civil_from_days
      ((Timestamp.seconds ts
        + match k with ByLocalTime => utc_offset | _ => 0 end) / 86400)
    = (tm_year r + 1900, tm_mon r + 1, tm_mday r).
Proof.
  intros Hwf Hoff.
  destruct (posix_platform_call utc_offset k ts Hwf) as [Hcall Hs].
  set (time := Timestamp.seconds ts
               + match k with ByLocalTime => utc_offset | _ => 0 end) in *.
  assert (Htime : - 62000000000 <= time <= 259000000000)
    by (subst time; destruct k; lia).
  destruct (PosixDays.timegm_gmtime_r time Htime)
    as (r & Hr & Hback & Hranges).
  exists r. split; [ | split; [exact Hback | exact Hranges]].
  pose proof (decompose_cases (Posix.libc utc_offset) k ts) as Hcases.
  cbv zeta in Hcases. fold (Timestamp.seconds ts) in Hcases.
  now rewrite Hcall, Hr in Hcases.
Qed.

(** The composed value of decomposed fields is the timestamp they came
    from. *)
Lemma stamp_value_fields_of (r : tm) (ts : Timestamp.t) :
  Timestamp.wf ts ->
  stamp_value (Timestamp.seconds ts) (fields_of r ts) = Timestamp.total ts.
Proof.
  intros Hwf. rewrite stamp_value_wraps.
  unfold epoch_nanoseconds, fields_of, Timestamp.seconds,
    Timestamp.milliseconds, Timestamp.microseconds, Timestamp.nanoseconds.
  cbn [_millisecond _microsecond _nanosecond].
  replace (Timestamp.total ts / 1000000000 * 1000000000
           + Timestamp.total ts / 1000000 mod 1000 * 1000000
           + Timestamp.total ts / 1000 mod 1000 * 1000
           + Timestamp.total ts mod 1000)
    with (Timestamp.total ts)
    by (Z.div_mod_to_equations; lia).
  now apply u64_small.
Qed.

(** [timegm] of the [struct tm] rebuilt from decomposed fields is [timegm]
    of the broken-down time they were read from. *)
Lemma posix_timegm_fields_of (r : tm) (ts : Timestamp.t) :
  0 <= tm_sec r <= 59 ->
  Posix.timegm (tm_of (fields_of r ts)) = Posix.timegm r.
Proof.
  intros Hsec. unfold Posix.timegm, tm_of, fields_of.
  cbn [tm_sec tm_min tm_hour tm_mday tm_mon tm_year
       _year _month _day _hour _minute _second].
  rewrite Z.rem_small by lia.
  replace (tm_year r + 1900 - 1900) with (tm_year r) by ring.
  replace (tm_mon r + 1 - 1) with (tm_mon r) by ring.
  reflexivity.
Qed.

(** Decomposing a timestamp and composing the result gives the timestamp
    back: on the POSIX platform with a 64-bit [time_t], for every 64-bit
    timestamp, with [Time], with [UtcTime] and, in a zone within a day of
    UTC, with [LocalTime] and [localstamp]. *)
Theorem decompose_compose_round_trip
    (utc_offset : Z) (k : Decomposer) (ts : Timestamp.t) :
  Timestamp.wf ts ->
  - 86400 <= utc_offset <= 86400 ->
  recompose (Posix.libc utc_offset) k ts = Ok ts.
Proof.
  intros Hwf Hoff.
  destruct (posix_decompose utc_offset k ts Hwf Hoff)
    as (r & Hdec & Hback & Hsec & _).
  destruct (posix_platform_call utc_offset k ts Hwf) as [_ Hs].
  unfold recompose. rewrite Hdec. cbn [res_bind].
  pose proof (posix_timegm_fields_of r ts Hsec) as Hsame.
  pose proof (stamp_value_fields_of r ts Hwf) as Hvalue.
  destruct ts as [total]. cbn [Timestamp.total] in *.
  destruct k; unfold utcstamp, localstamp;
    cbn [timegm mktime Posix.libc]; rewrite Hsame, Hback;
    rewrite ?Z.add_0_r;
    replace (Timestamp.seconds {| Timestamp.total := total |}
             + utc_offset - utc_offset)
      with (Timestamp.seconds {| Timestamp.total := total |}) by ring;
    (destruct (Z.eqb_spec (Timestamp.seconds {| Timestamp.total := total |})
                (-1)); [lia | ]);
    now rewrite Hvalue.
Qed.

Lemma decompose_compose_round_trip_witness :
  Timestamp.wf (Timestamp.Make 1468281600123456789) /\
  - 86400 <= 7200 <= 86400 /\
  recompose (Posix.libc 7200) ByLocalTime (Timestamp.Make 1468281600123456789)
  = Ok (Timestamp.Make 1468281600123456789).
Proof.
  assert (Hwf : Timestamp.wf (Timestamp.Make 1468281600123456789))
    by (unfold Timestamp.wf; cbn; split; [discriminate | reflexivity]).
  assert (Hoff : - 86400 <= 7200 <= 86400) by (split; discriminate).
  split; [exact Hwf | ]. split; [exact Hoff | ].
  exact (decompose_compose_round_trip 7200 ByLocalTime
           (Timestamp.Make 1468281600123456789) Hwf Hoff).
Defined.

(** On the POSIX platform with a 64-bit [time_t] no decomposing constructor
    fails on a 64-bit timestamp.  The calendar time it returns names a day
    that exists in its month, and all its fields but the year are in their
    documented ranges.  With [Time] and [UtcTime] the year lies in
    1970..2554 and the field constructor accepts the tuple; with
    [LocalTime], in a zone within a day of UTC, the year lies in
    1969..2554. *)
Theorem decompose_total_and_valid
    (utc_offset : Z) (k : Decomposer) (ts : Timestamp.t) :
  Timestamp.wf ts ->
  - 86400 <= utc_offset <= 86400 ->
  let L := Posix.libc utc_offset in
  exists t : Time,
    decompose L k ts = Ok t /\
    _day t <= Posix.days_in_month (_year t) (_month t) /\
    (forall f : Field, f <> Year -> in_range 8 t f) /\
    1969 <= _year t <= 2554 /\
    (k <> ByLocalTime ->
       1970 <= _year t /\
       Time_of_fields L (_year t) (_month t) (_day t) (_hour t) (_minute t)
         (_second t) (_millisecond t) (_microsecond t) (_nanosecond t)
       = Ok t).
Proof.
  intros Hwf Hoff L.
  destruct (posix_decompose utc_offset k ts Hwf Hoff)
    as (r & Hdec & Hback & Hsec & Hmin & Hhour & Hmon & Hday & Hcivil).
  destruct (posix_platform_call utc_offset k ts Hwf) as [_ Hs].
  set (time := Timestamp.seconds ts
               + match k with ByLocalTime => utc_offset | _ => 0 end) in *.
  pose proof (PosixDays.days_from_civil_from_days (time / 86400)) as Hdays.
  rewrite Hcivil in Hdays. destruct Hdays as (Hdays & _ & _).
  assert (Hd31 : 1 <= tm_mday r <= 31).
  { destruct (PosixFacts.days_in_month_bounds _ _ _ Hday) as [H _]. exact H. }
  destruct (PosixDays.days_from_civil_outside (tm_year r + 1900)
              (tm_mon r + 1) (tm_mday r)) as (Hbefore & Hbefore' & Hafter);
    try lia.
  rewrite Hdays in Hbefore, Hbefore', Hafter.
  assert (Hrange : - 1 <= time / 86400 <= 213504).
  { split.
    - apply Z.div_le_lower_bound; subst time; destruct k; lia.
    - assert (time / 86400 < 213505)
        by (apply Z.div_lt_upper_bound; subst time; destruct k; lia).
      lia. }
  assert (Hutc : k <> ByLocalTime -> 0 <= time / 86400).
  { intros Hk. apply Z.div_pos; [ | lia].
    subst time. destruct k; try lia. contradiction. }
  pose proof (Z.mod_pos_bound (Timestamp.milliseconds ts) 1000).
  pose proof (Z.mod_pos_bound (Timestamp.microseconds ts) 1000).
  pose proof (Z.mod_pos_bound (Timestamp.nanoseconds ts) 1000).
  assert (Hother : forall f : Field,
             f <> Year -> in_range 8 (fields_of r ts) f).
  { intros f Hf. destruct f; try contradiction;
      unfold in_range, field_range, field_value, fields_of;
      cbn [fst snd _month _day _hour _minute _second
           _millisecond _microsecond _nanosecond];
      rewrite ?Z.rem_small by lia; lia. }
  exists (fields_of r ts).
  split; [exact Hdec | ]. split; [exact (proj2 Hday) | ].
  split; [exact Hother | ].
  cbn [fields_of _year]. split; [lia | ].
  intros Hk. specialize (Hutc Hk). split; [lia | ].
  destruct (Time_of_fields_cases L (tm_year r + 1900) (tm_mon r + 1)
              (tm_mday r) (tm_hour r) (tm_min r) (Z.rem (tm_sec r) 60)
              (Timestamp.milliseconds ts mod 1000)
              (Timestamp.microseconds ts mod 1000)
              (Timestamp.nanoseconds ts mod 1000))
    as [[_ Hok] | (f & [Hout _] & _)]; cbv zeta in *.
  - exact Hok.
  - exfalso. apply Hout. destruct f; try (apply Hother; discriminate).
    unfold in_range. cbn. lia.
Qed.

Lemma decompose_total_and_valid_witness :
  Timestamp.wf (Timestamp.Make 18446744073709551615) /\
  - 86400 <= 0 <= 86400 /\
  exists t : Time,
    decompose (Posix.libc 0) ByUtcTime (Timestamp.Make 18446744073709551615)
    = Ok t /\
    1969 <= _year t <= 2554.
Proof.
  assert (Hwf : Timestamp.wf (Timestamp.Make 18446744073709551615))
    by (unfold Timestamp.wf; cbn; split; [discriminate | reflexivity]).
  assert (Hoff : - 86400 <= 0 <= 86400) by (split; discriminate).
  split; [exact Hwf | ]. split; [exact Hoff | ].
  destruct (decompose_total_and_valid 0 ByUtcTime
              (Timestamp.Make 18446744073709551615) Hwf Hoff)
    as (t & Hdec & _ & _ & Hyear & _).
  exists t. split; [exact Hdec | exact Hyear].
Defined.

(** ** Composition on any platform *)

(** What the composing member functions return. *)
Lemma compose_cases (L : Libc) (c : Composer) (t : Time) :
  (platform_seconds L c t = -1 /\
   exists message : string,
     compose L c t = Throw (SystemException message None)) \/
  (platform_seconds L c t <> -1 /\
   compose L c t
   = Ok (Timestamp.Make (u64 (epoch_nanoseconds (platform_seconds L c t) t)))).
Proof.
  destruct c; cbn [compose platform_seconds]; unfold utcstamp, localstamp;
    match goal with |- context [?a =? -1] => destruct (Z.eqb_spec a (-1)) end;
    rewrite <- ?stamp_value_wraps; eauto.
Qed.

(** The seconds and the three sub-second fields of a calendar time can be
    read back from the timestamp composed from it, on any platform and
    whatever the calendar calls do with the date: when the sub-second
    fields are in range, the seconds of the composition call are not
    negative and the nanosecond count does not wrap, the timestamp's whole
    seconds are those seconds, and every decomposition of it that succeeds,
    on the same platform or another, returns the three sub-second fields
    unchanged. *)
Theorem subsecond_fields_survive
    (L : Libc) (c : Composer) (t : Time) (ts : Timestamp.t) :
  compose L c t = Ok ts ->
  subsecond_in_range t ->
  0 <= platform_seconds L c t ->
  epoch_nanoseconds (platform_seconds L c t) t < 2 ^ 64 ->
  Timestamp.seconds ts = platform_seconds L c t /\
  forall (L' : Libc) (k : Decomposer) (t' : Time),
    decompose L' k ts = Ok t' ->
    _millisecond t' = _millisecond t /\
    _microsecond t' = _microsecond t /\
    _nanosecond t' = _nanosecond t.
Proof.
  intros Hts (Hms & Hus & Hns) Hpos Hfit.
  destruct (compose_cases L c t) as [[_ [message H]] | [_ H]];
    rewrite H in Hts; [discriminate | ].
  injection Hts as <-.
  set (s := platform_seconds L c t) in *.
  unfold epoch_nanoseconds in *. rewrite u64_small by lia.
  split.
  - unfold Timestamp.seconds. cbn [Timestamp.total].
    Z.div_mod_to_equations; lia.
  - intros L' k t' Ht'.
    pose proof (decompose_cases L' k
                  (Timestamp.Make
                     (s * 1000000000 + _millisecond t * 1000000
                      + _microsecond t * 1000 + _nanosecond t))) as Hcases.
    cbv zeta in Hcases. destruct (platform_call L' k _) as [r | ].
    + rewrite Hcases in Ht'. injection Ht' as <-.
      unfold fields_of, Timestamp.milliseconds, Timestamp.microseconds,
        Timestamp.nanoseconds.
      cbn [Timestamp.total _millisecond _microsecond _nanosecond].
      repeat split; Z.div_mod_to_equations; lia.
    + destruct Hcases as [message Hthrow]. rewrite Hthrow in Ht'.
      discriminate Ht'.
Qed.

Lemma subsecond_fields_survive_witness :
  let L := Posix.libc 0 in
  let t := mk_time 2016 2 31 0 0 0 123 456 789 in
  compose L ByUtcStamp t = Ok (Timestamp.Make 1456876800123456789) /\
  subsecond_in_range t /\
  Timestamp.seconds (Timestamp.Make 1456876800123456789)
  = platform_seconds L ByUtcStamp t.
Proof.
  cbv zeta.
  assert (Hsub : subsecond_in_range (mk_time 2016 2 31 0 0 0 123 456 789))
    by (unfold subsecond_in_range; cbn; lia).
  split; [reflexivity | ]. split; [exact Hsub | ].
  apply (subsecond_fields_survive (Posix.libc 0) ByUtcStamp
           (mk_time 2016 2 31 0 0 0 123 456 789)
           (Timestamp.Make 1456876800123456789) eq_refl Hsub).
  - vm_compute. discriminate.
  - vm_compute. reflexivity.
Defined.

(** Composition preserves order and loses nothing: for two calendar times
    with sub-second fields in range, non-negative seconds and nanosecond
    counts that do not wrap, the composed timestamps compare as the
    seconds, milliseconds, microseconds and nanoseconds compare in that
    order of significance, and they are equal only when all four agree. *)
Theorem compose_preserves_order
    (L : Libc) (c : Composer) (t1 t2 : Time) (ts1 ts2 : Timestamp.t) :
  compose L c t1 = Ok ts1 ->
  compose L c t2 = Ok ts2 ->
  subsecond_in_range t1 -> subsecond_in_range t2 ->
  0 <= platform_seconds L c t1 -> 0 <= platform_seconds L c t2 ->
  epoch_nanoseconds (platform_seconds L c t1) t1 < 2 ^ 64 ->
  epoch_nanoseconds (platform_seconds L c t2) t2 < 2 ^ 64 ->
  (Timestamp.ltb ts1 ts2 = true <->
   stamp_before (platform_seconds L c t1) t1 (platform_seconds L c t2) t2) /\
  (ts1 = ts2 <->
   platform_seconds L c t1 = platform_seconds L c t2 /\
   _millisecond t1 = _millisecond t2 /\
   _microsecond t1 = _microsecond t2 /\
   _nanosecond t1 = _nanosecond t2).
Proof.
  intros H1 H2 (Hms1 & Hus1 & Hns1) (Hms2 & Hus2 & Hns2) Hp1 Hp2 Hf1 Hf2.
  destruct (compose_cases L c t1) as [[_ [m1 E1]] | [_ E1]];
    rewrite E1 in H1; [discriminate | ].
  destruct (compose_cases L c t2) as [[_ [m2 E2]] | [_ E2]];
    rewrite E2 in H2; [discriminate | ].
  injection H1 as <-. injection H2 as <-.
  set (s1 := platform_seconds L c t1) in *.
  set (s2 := platform_seconds L c t2) in *.
  unfold epoch_nanoseconds, stamp_before, Timestamp.ltb in *.
  rewrite !u64_small by lia. cbn [Timestamp.total].
  rewrite Z.ltb_lt. split.
  - lia.
  - split.
    + intros [= H]. lia.
    + intros (-> & -> & -> & ->). reflexivity.
Qed.

Lemma compose_preserves_order_witness :
  let L := Posix.libc 0 in
  let t1 := mk_time 2016 7 12 0 0 0 999 999 999 in
  let t2 := mk_time 2016 7 12 0 0 1 0 0 0 in
  compose L ByUtcStamp t1 = Ok (Timestamp.Make 1468281600999999999) /\
  compose L ByUtcStamp t2 = Ok (Timestamp.Make 1468281601000000000) /\
  Timestamp.ltb (Timestamp.Make 1468281600999999999)
    (Timestamp.Make 1468281601000000000) = true.
Proof.
  cbv zeta. split; [reflexivity | ]. split; [reflexivity | ].
  apply (compose_preserves_order (Posix.libc 0) ByUtcStamp
           (mk_time 2016 7 12 0 0 0 999 999 999)
           (mk_time 2016 7 12 0 0 1 0 0 0)
           (Timestamp.Make 1468281600999999999)
           (Timestamp.Make 1468281601000000000) eq_refl eq_refl).
  - unfold subsecond_in_range; cbn; lia.
  - unfold subsecond_in_range; cbn; lia.
  - vm_compute. discriminate.
  - vm_compute. discriminate.
  - vm_compute. reflexivity.
  - vm_compute. reflexivity.
  - left. vm_compute. reflexivity.
Defined.

(** ** Composition on the POSIX platform *)

Lemma u64_negative (x : Z) : - 2 ^ 64 <= x < 0 -> u64 x = x + 2 ^ 64.
Proof.
  intros H. unfold u64.
  rewrite <- (Z_mod_plus_full x 1 (2 ^ 64)).
  apply Z.mod_small. lia.
Qed.

(** [timegm] of an accepted tuple is not negative. *)
Lemma posix_timegm_nonneg (t : Time) :
  valid_fields 8 t -> 0 <= Posix.timegm (tm_of t).
Proof.
  intros Hv.
  pose proof (Hv Year) as Hy. pose proof (Hv Month) as Hmo.
  pose proof (Hv Day) as Hd. pose proof (Hv Hour) as Hh.
  pose proof (Hv Minute) as Hmi. pose proof (Hv Second) as Hs.
  unfold in_range in Hy, Hmo, Hd, Hh, Hmi, Hs.
  cbn [field_range field_value fst snd] in Hy, Hmo, Hd, Hh, Hmi, Hs.
  unfold Posix.timegm.
  cbn [tm_of tm_year tm_mon tm_mday tm_hour tm_min tm_sec].
  assert (Hq : (_month t - 1) / 12 = 0) by (apply Z.div_small; lia).
  assert (Hr : (_month t - 1) mod 12 + 1 = _month t)
    by (rewrite Z.mod_small; lia).
  rewrite Hq, Hr.
  replace (_year t - 1900 + 1900 + 0) with (_year t) by ring.
  destruct (PosixFacts.days_from_civil_bounds (_year t) (_month t) (_day t))
    as [Hlo _]; lia.
Qed.

(** Where composition fails on the POSIX platform, for a tuple that the
    field constructor accepts.  [utcstamp] never fails.  [localstamp] fails
    exactly when the tuple is the local time one second before the epoch;
    for every earlier local time, east of Greenwich by at most a day, it
    does not fail but returns the negative nanosecond count plus [2 ^ 64],
    a timestamp in the last day of the 64-bit range. *)
Theorem posix_compose_failure
    (utc_offset : Z) (year month day hour minute second : Z)
    (millisecond microsecond nanosecond : Z) :
  let L := Posix.libc utc_offset in
  let t := mk_time year month day hour minute second
             millisecond microsecond nanosecond in
  Time_of_fields L year month day hour minute second
    millisecond microsecond nanosecond = Ok t ->
  (exists ts : Timestamp.t, utcstamp L t = Ok ts /\ Timestamp.wf ts) /\
  ((exists e : Exception, localstamp L t = Throw e) <->
   Posix.timegm (tm_of t) = utc_offset - 1) /\
  (Posix.timegm (tm_of t) < utc_offset - 1 -> utc_offset <= 86400 ->
   let count := epoch_nanoseconds (Posix.timegm (tm_of t) - utc_offset) t in
   localstamp L t = Ok (Timestamp.Make (2 ^ 64 + count)) /\
   2 ^ 64 - 86400000000000 <= 2 ^ 64 + count < 2 ^ 64).
Proof.
  intros L t Hok.
  assert (Hv : valid_fields 8 t).
  { exact (proj2 (Time_of_fields_accepts_valid L year month day hour minute
                    second millisecond microsecond nanosecond t Hok)). }
  pose proof (posix_timegm_nonneg t Hv) as Hpos.
  pose proof (Hv Millisecond) as Hms. pose proof (Hv Microsecond) as Hus.
  pose proof (Hv Nanosecond) as Hns.
  unfold in_range in Hms, Hus, Hns.
  cbn [field_range field_value fst snd] in Hms, Hus, Hns.
  refine (conj _ (conj _ _)).
  - unfold utcstamp. change (timegm L (tm_of t)) with (Posix.timegm (tm_of t)).
    destruct (Z.eqb_spec (Posix.timegm (tm_of t)) (-1)); [lia | ].
    eexists. split; [reflexivity | ].
    rewrite stamp_value_wraps. apply u64_range.
  - unfold localstamp.
    change (mktime L (tm_of t)) with (Posix.timegm (tm_of t) - utc_offset).
    destruct (Z.eqb_spec (Posix.timegm (tm_of t) - utc_offset) (-1)).
    + split; [lia | eauto].
    + split; [intros [e He]; discriminate He | lia].
  - intros Hbefore Hoff count. unfold localstamp.
    change (mktime L (tm_of t)) with (Posix.timegm (tm_of t) - utc_offset).
    destruct (Z.eqb_spec (Posix.timegm (tm_of t) - utc_offset) (-1));
      [lia | ].
    rewrite stamp_value_wraps. fold count.
    assert (Hcount : - 86400000000000 <= count < 0).
    { subst count. unfold epoch_nanoseconds.
      cbn [t _millisecond _microsecond _nanosecond] in *. lia. }
    clearbody count. clear - Hcount.
    assert (Hpow : 2 ^ 64 = 18446744073709551616) by reflexivity.
    rewrite u64_negative by lia.
    rewrite Z.add_comm. split; [reflexivity | lia].
Qed.

Lemma posix_compose_failure_witness :
  let L := Posix.libc 3600 in
  let t := mk_time 1970 1 1 0 59 59 0 0 0 in
  Time_of_fields L 1970 1 1 0 59 59 0 0 0 = Ok t /\
  Posix.timegm (tm_of t) = 3600 - 1 /\
  exists e : Exception, localstamp L t = Throw e.
Proof.
  cbv zeta. split; [reflexivity | ]. split; [reflexivity | ].
  pose proof (posix_compose_failure 3600 1970 1 1 0 59 59 0 0 0) as H.
  cbv zeta in H. destruct (H eq_refl) as (_ & Hfail & _).
  apply Hfail. reflexivity.
Defined.

(** * Further properties of the timed acquires *)

Module RWLockRunFacts.
Import RWLock RWLockRuns.

Lemma attempts_app (a b : list Event) :
  attempts (a ++ b) = (attempts a + attempts b)%nat.
Proof. unfold attempts. now rewrite filter_app, length_app. Qed.

Lemma yields_app (a b : list Event) :
  yields (a ++ b) = (yields a + yields b)%nat.
Proof. unfold yields. now rewrite filter_app, length_app. Qed.

Lemma readings_app (a b : list Event) :
  readings (a ++ b) = (readings a + readings b)%nat.
Proof. unfold readings. now rewrite filter_app, length_app. Qed.

(** *** The policy, for a try-lock that is one native call *)

Section NativeTry.

Variable outcome : Z -> Res bool.
Variable ev : Z -> Event.
Hypothesis ev_try :
  forall r : Z,
    is_try (ev r) = true /\ is_yield (ev r) = false /\
    is_reading (ev r) = false.
Variable try_lock : M bool.
Hypothesis try_native :
  forall w : World,
    try_lock w
    = (Some (outcome (native w (native_calls w))),
       mk_world (clock w) (clock_failure w) (native w)
         (clock_reads w) (S (native_calls w))
         (ev (native w (native_calls w)) :: trace w)).

(** The counts of the three events of a retry and of the two events that
    open a timed acquire. *)
Lemma retry_counts (r reading : Z) :
  readings [EvYield; ev r; EvNanoTimestamp reading] = 1%nat /\
  attempts [EvYield; ev r; EvNanoTimestamp reading] = 1%nat /\
  yields [EvYield; ev r; EvNanoTimestamp reading] = 1%nat.
Proof.
  destruct (ev_try r) as (Htry & Hyield & Hread).
  unfold readings, attempts, yields. cbn [filter is_reading is_try is_yield].
  now rewrite Htry, Hyield, Hread.
Qed.

Lemma opening_counts (r reading : Z) :
  readings [ev r; EvNanoTimestamp reading] = 1%nat /\
  attempts [ev r; EvNanoTimestamp reading] = 1%nat /\
  yields [ev r; EvNanoTimestamp reading] = 0%nat.
Proof.
  destruct (ev_try r) as (Htry & Hyield & Hread).
  unfold readings, attempts, yields. cbn [filter is_reading is_try is_yield].
  now rewrite Htry, Hyield, Hread.
Qed.

(** The loop acquires the lock at its attempt [k] when the attempts before
    it find the lock busy and the clock, read without failure, has not
    reached the deadline at any of the readings that precede them. *)
Lemma policy_loop_acquires (k : nat) :
  forall (fuel : nat) (deadline : Z) (w : World),
    (forall i : nat, (i < k)%nat ->
       outcome (native w (native_calls w + i)) = Ok false) ->
    outcome (native w (native_calls w + k)) = Ok true ->
    (forall i : nat, (i <= k)%nat ->
       clock_failure w (clock_reads w + i) = None) ->
    (forall i : nat, (i <= k)%nat ->
       clock w (clock_reads w + i) < deadline) ->
    (k < fuel)%nat ->
    exists events : list Event,
      policy_loop try_lock fuel deadline w
      = (Some (Ok true),
         mk_world (clock w) (clock_failure w) (native w)
           (clock_reads w + S k) (native_calls w + S k)
           (events ++ trace w)).
Proof.
  induction k as [ | k IH];
    intros fuel deadline w Hbusy Hfree Havail Hclock Hfuel;
    (destruct fuel as [ | fuel]; [lia | ]);
    cbn [policy_loop]; unfold bind;
    pose proof (Havail 0%nat (Nat.le_0_l _)) as Hnow;
    pose proof (Hclock 0%nat (Nat.le_0_l _)) as H0;
    rewrite Nat.add_0_r in Hnow, H0;
    rewrite (RWLockFacts.NanoTimestamp_available w Hnow);
    unfold after_reading; cbn [Timestamp.total];
    (destruct (Z.geb_spec (clock w (clock_reads w)) deadline); [lia | ]);
    rewrite try_native;
    cbn [clock clock_failure native clock_reads native_calls trace].
  - rewrite Nat.add_0_r in Hfree. rewrite Hfree. unfold ret.
    rewrite !Nat.add_1_r.
    now exists [ev (native w (native_calls w));
                EvNanoTimestamp (clock w (clock_reads w))].
  - pose proof (Hbusy 0%nat (Nat.lt_0_succ _)) as Hfirst.
    rewrite Nat.add_0_r in Hfirst.
    rewrite Hfirst. unfold Thread_Yield.
    cbn [clock clock_failure native clock_reads native_calls trace].
    match goal with
    | |- context [policy_loop try_lock fuel deadline ?w1] =>
        destruct (IH fuel deadline w1) as [events Heq]
    end.
    + intros i Hi. cbn [native native_calls].
      rewrite Nat.add_succ_comm. apply Hbusy. lia.
    + cbn [native native_calls]. now rewrite Nat.add_succ_comm.
    + intros i Hi. cbn [clock_failure clock_reads].
      rewrite Nat.add_succ_comm. apply Havail. lia.
    + intros i Hi. cbn [clock clock_reads].
      rewrite Nat.add_succ_comm. apply Hclock. lia.
    + lia.
    + rewrite Heq.
      cbn [clock clock_failure native clock_reads native_calls trace].
      exists (events ++ [EvYield; ev (native w (native_calls w));
                         EvNanoTimestamp (clock w (clock_reads w))])%list.
      rewrite <- app_assoc. cbn [app].
      now rewrite !Nat.add_succ_comm.
Qed.

(** Every loop that returns or throws has added its calls to the trace it
    started from, and the call that ended it tells how it ended.  It has
    read the clock once more than it has tried the lock, and yielded as
    often as it has tried, when a clock read ended it; it has read the
    clock as often as it has tried the lock, and yielded once less, when a
    try-lock ended it. *)
Lemma policy_loop_accounts (fuel : nat) :
  forall (deadline : Z) (w w' : World) (res : Res bool),
    policy_loop try_lock fuel deadline w = (Some res, w') ->
    exists events : list Event,
      w' = mk_world (clock w) (clock_failure w) (native w)
             (clock_reads w + readings events)
             (native_calls w + attempts events) (events ++ trace w) /\
      ((exists (reading : Z) (earlier : list Event),
          events = EvNanoTimestamp reading :: earlier /\
          res = Ok false /\
          readings events = S (attempts events) /\
          yields events = attempts events) \/
       (exists (message : string) (code : option Z) (earlier : list Event),
          events = EvNanoTimestampFails :: earlier /\
          clock_failure w (clock_reads w + attempts events)
          = Some (message, code) /\
          res = Throw (SystemException message code) /\
          readings events = S (attempts events) /\
          yields events = attempts events) \/
       (exists (result : Z) (earlier : list Event),
          events = ev result :: earlier /\
          res = outcome result /\
          res <> Ok false /\
          readings events = attempts events /\
          attempts events = S (yields events))).
Proof.
  induction fuel as [ | fuel IH]; intros deadline w w' res;
    cbn [policy_loop]; unfold bind, NanoTimestamp;
    destruct (clock_failure w (clock_reads w)) as [[message code] | ]
      eqn:Hnow;
    cbn [Timestamp.total].
  1, 3: intros [= <- <-];
    exists [EvNanoTimestampFails]; cbn;
    rewrite Nat.add_1_r, !Nat.add_0_r;
    (split; [reflexivity | ]); right; left;
    exists message, code, []; now repeat split.
  all: destruct (clock w (clock_reads w) >=? deadline).
  1, 3: intros [= <- <-];
    exists [EvNanoTimestamp (clock w (clock_reads w))]; cbn;
    rewrite Nat.add_1_r, Nat.add_0_r;
    (split; [reflexivity | ]); left;
    exists (clock w (clock_reads w)), []; now repeat split.
  - discriminate.
  - rewrite try_native.
    cbn [clock clock_failure native clock_reads native_calls trace].
    destruct (opening_counts (native w (native_calls w))
                (clock w (clock_reads w))) as (Hr2 & Ha2 & Hy2).
    destruct (retry_counts (native w (native_calls w))
                (clock w (clock_reads w))) as (Hr3 & Ha3 & Hy3).
    destruct (outcome (native w (native_calls w))) as [[ | ] | e] eqn:Hout.
    + intros [= <- <-].
      exists [ev (native w (native_calls w));
              EvNanoTimestamp (clock w (clock_reads w))].
      rewrite Hr2, Ha2, !Nat.add_1_r. cbn [app].
      split; [reflexivity | ]. right; right.
      exists (native w (native_calls w)),
        [EvNanoTimestamp (clock w (clock_reads w))].
      rewrite Hout, Hy2. now repeat split.
    + unfold Thread_Yield.
      cbn [clock clock_failure native clock_reads native_calls trace].
      intros Hloop. apply IH in Hloop.
      destruct Hloop as (events & -> & Hcases).
      cbn [clock clock_failure native clock_reads native_calls trace]
        in Hcases |- *.
      exists (events ++ [EvYield; ev (native w (native_calls w));
                         EvNanoTimestamp (clock w (clock_reads w))])%list.
      rewrite readings_app, attempts_app, yields_app, Hr3, Ha3, Hy3.
      rewrite <- app_assoc. cbn [app].
      split; [f_equal; lia | ].
      destruct Hcases as
        [(reading & earlier & -> & Hres & Hr & Hy)
        | [(m & c & earlier & -> & Hfail & Hres & Hr & Hy)
          | (result & earlier & -> & Hres & Hne & Hr & Ha)]].
      * left. eexists; eexists. split; [reflexivity | ].
        split; [exact Hres | ]. lia.
      * right; left. exists m, c. eexists. split; [reflexivity | ].
        split; [ | split; [exact Hres | lia]].
        rewrite <- Hfail. f_equal. lia.
      * right; right. exists result. eexists. split; [reflexivity | ].
        split; [exact Hres | ]. split; [exact Hne | ]. lia.
    + intros [= <- <-].
      exists [ev (native w (native_calls w));
              EvNanoTimestamp (clock w (clock_reads w))].
      rewrite Hr2, Ha2, !Nat.add_1_r. cbn [app].
      split; [reflexivity | ]. right; right.
      exists (native w (native_calls w)),
        [EvNanoTimestamp (clock w (clock_reads w))].
      rewrite Hout, Hy2. now repeat split.
Qed.

(** While the lock stays busy and no reading reaches the deadline the loop
    uses up any bound given to it: it is still running after [fuel]
    attempts. *)
Lemma policy_loop_spins (fuel : nat) :
  forall (deadline : Z) (w : World),
    (forall i : nat, outcome (native w (native_calls w + i)) = Ok false) ->
    (forall i : nat, clock_failure w (clock_reads w + i) = None) ->
    (forall i : nat, clock w (clock_reads w + i) < deadline) ->
    exists events : list Event,
      policy_loop try_lock fuel deadline w
      = (None,
         mk_world (clock w) (clock_failure w) (native w)
           (clock_reads w + S fuel) (native_calls w + fuel)
           (events ++ trace w)).
Proof.
  induction fuel as [ | fuel IH]; intros deadline w Hbusy Havail Hclock;
    cbn [policy_loop]; unfold bind;
    pose proof (Havail 0%nat) as Hnow;
    pose proof (Hclock 0%nat) as H0; pose proof (Hbusy 0%nat) as Hfirst;
    rewrite Nat.add_0_r in Hnow, H0, Hfirst;
    rewrite (RWLockFacts.NanoTimestamp_available w Hnow);
    unfold after_reading; cbn [Timestamp.total];
    (destruct (Z.geb_spec (clock w (clock_reads w)) deadline); [lia | ]).
  - exists [EvNanoTimestamp (clock w (clock_reads w))].
    unfold spinning. now rewrite Nat.add_1_r, Nat.add_0_r.
  - rewrite try_native.
    cbn [clock clock_failure native clock_reads native_calls trace].
    rewrite Hfirst. unfold Thread_Yield.
    cbn [clock clock_failure native clock_reads native_calls trace].
    match goal with
    | |- context [policy_loop try_lock fuel deadline ?w1] =>
        destruct (IH deadline w1) as [events Heq]
    end.
    + intros i. cbn [native native_calls].
      rewrite Nat.add_succ_comm. apply Hbusy.
    + intros i. cbn [clock_failure clock_reads].
      rewrite Nat.add_succ_comm. apply Havail.
    + intros i. cbn [clock clock_reads].
      rewrite Nat.add_succ_comm. apply Hclock.
    + rewrite Heq.
      cbn [clock clock_failure native clock_reads native_calls trace].
      exists (events ++ [EvYield; ev (native w (native_calls w));
                         EvNanoTimestamp (clock w (clock_reads w))])%list.
      rewrite <- app_assoc. cbn [app].
      now rewrite !Nat.add_succ_comm.
Qed.

(** The three facts, for the whole timed acquire. *)
Lemma policy_acquires (k fuel : nat) (timeout : Z) (w : World) :
  let deadline :=
    Timestamp.total
      (Timestamp.add (Timestamp.Make (clock w (clock_reads w))) timeout) in
  (forall i : nat, (i < k)%nat ->
     outcome (native w (native_calls w + i)) = Ok false) ->
  outcome (native w (native_calls w + k)) = Ok true ->
  (forall i : nat, (i <= k)%nat ->
     clock_failure w (clock_reads w + i) = None) ->
  (forall i : nat, (1 <= i <= k)%nat ->
     clock w (clock_reads w + i) < deadline) ->
  (k <= fuel)%nat ->
  exists events : list Event,
    timed_acquire_policy try_lock fuel timeout w
    = (Some (Ok true),
       mk_world (clock w) (clock_failure w) (native w)
         (clock_reads w + S k) (native_calls w + S k)
         (events ++ trace w)).
Proof.
  intros deadline Hbusy Hfree Havail Hclock Hfuel.
  pose proof (Havail 0%nat (Nat.le_0_l _)) as Hnow.
  rewrite Nat.add_0_r in Hnow.
  unfold timed_acquire_policy, bind.
  rewrite (RWLockFacts.NanoTimestamp_available w Hnow). unfold after_reading.
  rewrite try_native.
  cbn [clock clock_failure native clock_reads native_calls trace].
  fold deadline.
  destruct k as [ | k].
  - rewrite Nat.add_0_r in Hfree. rewrite Hfree. unfold ret.
    rewrite !Nat.add_1_r.
    now exists [ev (native w (native_calls w));
                EvNanoTimestamp (clock w (clock_reads w))].
  - pose proof (Hbusy 0%nat (Nat.lt_0_succ _)) as Hfirst.
    rewrite Nat.add_0_r in Hfirst. rewrite Hfirst.
    match goal with
    | |- context [policy_loop try_lock fuel deadline ?w1] =>
        destruct (policy_loop_acquires k fuel deadline w1) as [events Heq]
    end.
    + intros i Hi. cbn [native native_calls].
      rewrite Nat.add_succ_comm. apply Hbusy. lia.
    + cbn [native native_calls]. now rewrite Nat.add_succ_comm.
    + intros i Hi. cbn [clock_failure clock_reads].
      rewrite Nat.add_succ_comm. apply Havail. lia.
    + intros i Hi. cbn [clock clock_reads].
      rewrite Nat.add_succ_comm. apply Hclock. lia.
    + lia.
    + rewrite Heq.
      cbn [clock clock_failure native clock_reads native_calls trace].
      exists (events ++ [ev (native w (native_calls w));
                         EvNanoTimestamp (clock w (clock_reads w))])%list.
      rewrite <- app_assoc. cbn [app].
      now rewrite !Nat.add_succ_comm.
Qed.

Lemma policy_accounts (fuel : nat) (timeout : Z) (w w' : World)
    (res : Res bool) :
  timed_acquire_policy try_lock fuel timeout w = (Some res, w') ->
  exists events : list Event,
    w' = mk_world (clock w) (clock_failure w) (native w)
           (clock_reads w + readings events)
           (native_calls w + attempts events) (events ++ trace w) /\
    finished_run ev outcome w res events.
Proof.
  unfold timed_acquire_policy, bind, NanoTimestamp, finished_run.
  destruct (clock_failure w (clock_reads w)) as [[message code] | ] eqn:Hnow.
  { intros [= <- <-]. exists [EvNanoTimestampFails]. cbn.
    rewrite Nat.add_1_r, !Nat.add_0_r.
    split; [reflexivity | ]. right; left.
    exists message, code, []. repeat split; try reflexivity; auto. }
  rewrite try_native.
  cbn [clock clock_failure native clock_reads native_calls trace].
  destruct (opening_counts (native w (native_calls w))
              (clock w (clock_reads w))) as (Hr2 & Ha2 & Hy2).
  destruct (outcome (native w (native_calls w))) as [[ | ] | e] eqn:Hout.
  - intros [= <- <-].
    exists [ev (native w (native_calls w));
            EvNanoTimestamp (clock w (clock_reads w))].
    rewrite Hr2, Ha2, Hy2, !Nat.add_1_r. cbn [app].
    split; [reflexivity | ]. right; right.
    exists (native w (native_calls w)),
      [EvNanoTimestamp (clock w (clock_reads w))].
    rewrite Hout. repeat split; try reflexivity; try discriminate. now left.
  - intros Hloop. apply policy_loop_accounts in Hloop.
    destruct Hloop as (events & -> & Hcases).
    cbn [clock clock_failure native clock_reads native_calls trace]
      in Hcases |- *.
    exists (events ++ [ev (native w (native_calls w));
                       EvNanoTimestamp (clock w (clock_reads w))])%list.
    rewrite readings_app, attempts_app, yields_app, Hr2, Ha2, Hy2.
    rewrite <- app_assoc. cbn [app].
    split; [f_equal; lia | ].
    destruct Hcases as
      [(reading & earlier & -> & Hres & Hr & Hy)
      | [(m & c & earlier & -> & Hfail & Hres & Hr & Hy)
        | (result & earlier & -> & Hres & Hne & Hr & Ha)]].
    + left. eexists; eexists. split; [reflexivity | ].
      split; [exact Hres | ]. lia.
    + right; left. exists m, c. eexists. split; [reflexivity | ].
      split; [ | split; [exact Hres | lia]].
      rewrite <- Hfail. f_equal. lia.
    + right; right. exists result. eexists. split; [reflexivity | ].
      split; [exact Hres | ]. split; [exact Hne | ]. lia.
  - intros [= <- <-].
    exists [ev (native w (native_calls w));
            EvNanoTimestamp (clock w (clock_reads w))].
    rewrite Hr2, Ha2, Hy2, !Nat.add_1_r. cbn [app].
    split; [reflexivity | ]. right; right.
    exists (native w (native_calls w)),
      [EvNanoTimestamp (clock w (clock_reads w))].
    rewrite Hout. repeat split; try reflexivity; try discriminate. now left.
Qed.

Lemma policy_spins (fuel : nat) (timeout : Z) (w : World) :
  let deadline :=
    Timestamp.total
      (Timestamp.add (Timestamp.Make (clock w (clock_reads w))) timeout) in
  (forall i : nat, outcome (native w (native_calls w + i)) = Ok false) ->
  (forall i : nat, clock_failure w (clock_reads w + i) = None) ->
  (forall i : nat, clock w (clock_reads w + S i) < deadline) ->
  exists events : list Event,
    timed_acquire_policy try_lock fuel timeout w
    = (None,
       mk_world (clock w) (clock_failure w) (native w)
         (clock_reads w + S (S fuel)) (native_calls w + S fuel)
         (events ++ trace w)).
Proof.
  intros deadline Hbusy Havail Hclock.
  pose proof (Havail 0%nat) as Hnow. rewrite Nat.add_0_r in Hnow.
  unfold timed_acquire_policy, bind.
  rewrite (RWLockFacts.NanoTimestamp_available w Hnow). unfold after_reading.
  rewrite try_native.
  cbn [clock clock_failure native clock_reads native_calls trace].
  fold deadline.
  pose proof (Hbusy 0%nat) as Hfirst. rewrite Nat.add_0_r in Hfirst.
  rewrite Hfirst.
  match goal with
  | |- context [policy_loop try_lock fuel deadline ?w1] =>
      destruct (policy_loop_spins fuel deadline w1) as [events Heq]
  end.
  - intros i. cbn [native native_calls].
    rewrite Nat.add_succ_comm. apply Hbusy.
  - intros i. cbn [clock_failure clock_reads].
    rewrite Nat.add_succ_comm. apply Havail.
  - intros i. cbn [clock clock_reads].
    rewrite Nat.add_succ_comm. apply Hclock.
  - rewrite Heq.
    cbn [clock clock_failure native clock_reads native_calls trace].
    exists (events ++ [ev (native w (native_calls w));
                       EvNanoTimestamp (clock w (clock_reads w))])%list.
    rewrite <- app_assoc. cbn [app].
    now rewrite !Nat.add_succ_comm.
Qed.

End NativeTry.

(** *** The timed acquires of the lock *)

Lemma TryLockRead_native (EBUSY : Z) (w : World) :
  TryLockRead EBUSY w
  = (Some (try_outcome EBUSY "Failed to try lock for read!"
             (native w (native_calls w))),
     mk_world (clock w) (clock_failure w) (native w)
       (clock_reads w) (S (native_calls w))
       (EvTryRdLock (native w (native_calls w)) :: trace w)).
Proof. exact (RWLockFacts.TryLockRead_cases EBUSY w). Qed.

Lemma TryLockWrite_native (EBUSY : Z) (w : World) :
  TryLockWrite EBUSY w
  = (Some (try_outcome EBUSY "Failed to try lock for write!"
             (native w (native_calls w))),
     mk_world (clock w) (clock_failure w) (native w)
       (clock_reads w) (S (native_calls w))
       (EvTryWrLock (native w (native_calls w)) :: trace w)).
Proof. exact (RWLockFacts.TryLockWrite_cases EBUSY w). Qed.

Lemma EvTryRdLock_try (r : Z) :
  is_try (EvTryRdLock r) = true /\ is_yield (EvTryRdLock r) = false /\
  is_reading (EvTryRdLock r) = false.
Proof. now repeat split. Qed.

Lemma EvTryWrLock_try (r : Z) :
  is_try (EvTryWrLock r) = true /\ is_yield (EvTryWrLock r) = false /\
  is_reading (EvTryWrLock r) = false.
Proof. now repeat split. Qed.

Lemma try_outcome_busy (EBUSY : Z) (message : string) :
  EBUSY <> 0 -> try_outcome EBUSY message EBUSY = Ok false.
Proof.
  intros H. unfold try_outcome. rewrite Z.eqb_refl, orb_true_r.
  now destruct (Z.eqb_spec EBUSY 0).
Qed.

(** A timed acquire gets the lock when it comes free in time.  If the
    native try-lock finds the lock busy [k] times and then succeeds, the
    clock is read without failure, and none of the [k] clock readings taken
    before the retries has reached the deadline, then [TryLockReadFor] and
    [TryLockWriteFor] return true after exactly [k + 1] native calls and
    [k + 1] clock readings. *)
Theorem timed_acquire_acquires
    (EBUSY : Z) (k fuel : nat) (timespan : Z) (w : World) :
  let finish :=
    Timestamp.total
      (Timestamp.add (Timestamp.Make (clock w (clock_reads w))) timespan) in
  EBUSY <> 0 ->
  (forall i : nat, (i < k)%nat -> native w (native_calls w + i) = EBUSY) ->
  native w (native_calls w + k) = 0 ->
  (forall i : nat, (i <= k)%nat ->
     clock_failure w (clock_reads w + i) = None) ->
  (forall i : nat, (1 <= i <= k)%nat ->
     clock w (clock_reads w + i) < finish) ->
  (k <= fuel)%nat ->
  (fst (TryLockReadFor EBUSY fuel timespan w) = Some (Ok true) /\
   native_calls (snd (TryLockReadFor EBUSY fuel timespan w))
   = (native_calls w + S k)%nat /\
   clock_reads (snd (TryLockReadFor EBUSY fuel timespan w))
   = (clock_reads w + S k)%nat) /\
  (fst (TryLockWriteFor EBUSY fuel timespan w) = Some (Ok true) /\
   native_calls (snd (TryLockWriteFor EBUSY fuel timespan w))
   = (native_calls w + S k)%nat /\
   clock_reads (snd (TryLockWriteFor EBUSY fuel timespan w))
   = (clock_reads w + S k)%nat).
Proof.
  intros finish Hbusy Hheld Hfree Havail Hclock Hfuel. split.
  - rewrite RWLockFacts.TryLockReadFor_policy.
    destruct (policy_acquires
                (try_outcome EBUSY "Failed to try lock for read!")
                EvTryRdLock (TryLockRead EBUSY) (TryLockRead_native EBUSY)
                k fuel timespan w) as [events Heq];
      try assumption.
    + intros i Hi. rewrite (Hheld i Hi). now apply try_outcome_busy.
    + now rewrite Hfree.
    + rewrite Heq. now cbn.
  - rewrite RWLockFacts.TryLockWriteFor_policy.
    destruct (policy_acquires
                (try_outcome EBUSY "Failed to try lock for write!")
                EvTryWrLock (TryLockWrite EBUSY) (TryLockWrite_native EBUSY)
                k fuel timespan w) as [events Heq];
      try assumption.
    + intros i Hi. rewrite (Hheld i Hi). now apply try_outcome_busy.
    + now rewrite Hfree.
    + rewrite Heq. now cbn.
Qed.

Lemma timed_acquire_acquires_witness :
  let w := scripted [100; 120; 140; 160] [16; 16; 0] in
  16 <> 0 /\
  native w 2 = 0 /\
  fst (TryLockReadFor 16 5 50 w) = Some (Ok true).
Proof.
  cbv zeta. split; [discriminate | ]. split; [reflexivity | ].
  pose proof (timed_acquire_acquires 16 2 5 50
                (scripted [100; 120; 140; 160] [16; 16; 0])) as H.
  cbv zeta in H. destruct H as [[H _] _].
  - discriminate.
  - intros i Hi. destruct i as [ | [ | i]]; [reflexivity | reflexivity | lia].
  - reflexivity.
  - intros i Hi. reflexivity.
  - intros i Hi. destruct i as [ | [ | [ | i]]];
      [lia | reflexivity | reflexivity | lia].
  - apply Nat.leb_le. reflexivity.
  - exact H.
Defined.

(** The calls of a run.  Whenever [TryLockReadFor] or [TryLockWriteFor]
    returns or throws, it has left the clock and the lock as they were and
    added its calls to the trace, and the last of them tells how it ended.
    A run that ends with a clock reading returns false, and has read the
    clock once more than it has tried the lock and yielded once less.  A
    run that ends with a failed clock read throws the exception of that
    read, and has the same counts, or no try-lock and no yield when it is
    the first read that failed.  A run that ends with a try-lock returns
    true or throws the exception of that try-lock, and has read the clock
    as often as it has tried the lock and yielded twice less, or not at
    all when it tried once. *)
Theorem timed_acquire_accounts
    (EBUSY : Z) (fuel : nat) (timespan : Z) (w w' : World)
    (res : Res bool) :
  (TryLockReadFor EBUSY fuel timespan w = (Some res, w') ->
   exists events : list Event,
     w' = mk_world (clock w) (clock_failure w) (native w)
            (clock_reads w + readings events)
            (native_calls w + attempts events) (events ++ trace w) /\
     finished_run EvTryRdLock
       (try_outcome EBUSY "Failed to try lock for read!") w res events) /\
  (TryLockWriteFor EBUSY fuel timespan w = (Some res, w') ->
   exists events : list Event,
     w' = mk_world (clock w) (clock_failure w) (native w)
            (clock_reads w + readings events)
            (native_calls w + attempts events) (events ++ trace w) /\
     finished_run EvTryWrLock
       (try_outcome EBUSY "Failed to try lock for write!") w res events).
Proof.
  split; intros H.
  - rewrite RWLockFacts.TryLockReadFor_policy in H.
    exact (policy_accounts _ _ EvTryRdLock_try _ (TryLockRead_native EBUSY)
             fuel timespan w w' res H).
  - rewrite RWLockFacts.TryLockWriteFor_policy in H.
    exact (policy_accounts _ _ EvTryWrLock_try _ (TryLockWrite_native EBUSY)
             fuel timespan w w' res H).
Qed.

Lemma timed_acquire_accounts_witness :
  let w := unavailable_at 2 "counter unavailable" None
             (scripted [100; 120; 140; 160] [16; 16; 0]) in
  TryLockReadFor 16 5 50 w
  = (Some (Throw (SystemException "counter unavailable" None)),
     mk_world (clock w) (clock_failure w) (native w) 3 2
       [EvNanoTimestampFails; EvYield; EvTryRdLock 16; EvNanoTimestamp 120;
        EvTryRdLock 16; EvNanoTimestamp 100]) /\
  exists events : list Event,
    trace (snd (TryLockReadFor 16 5 50 w)) = (events ++ trace w)%list /\
    finished_run EvTryRdLock
      (try_outcome 16 "Failed to try lock for read!") w
      (Throw (SystemException "counter unavailable" None)) events.
Proof.
  cbv zeta. split; [reflexivity | ].
  destruct (timed_acquire_accounts 16 5 50
              (unavailable_at 2 "counter unavailable" None
                 (scripted [100; 120; 140; 160] [16; 16; 0]))
              (snd (TryLockReadFor 16 5 50
                      (unavailable_at 2 "counter unavailable" None
                         (scripted [100; 120; 140; 160] [16; 16; 0]))))
              (Throw (SystemException "counter unavailable" None)))
    as [Hread _].
  destruct (Hread eq_refl) as (events & Hw & Hrun).
  exists events. split; [now rewrite Hw | exact Hrun].
Defined.

(** The timed acquires are bounded by the clock alone.  While the lock
    stays busy and the clock, read without failure, does not reach the
    deadline, a run allowed [fuel] iterations of the loop is still in the
    loop after [fuel + 1] native try-lock calls, for every [fuel]: the code
    puts no bound on the number of attempts. *)
Theorem timed_acquire_spins
    (EBUSY : Z) (fuel : nat) (timespan : Z) (w : World) :
  let finish :=
    Timestamp.total
      (Timestamp.add (Timestamp.Make (clock w (clock_reads w))) timespan) in
  EBUSY <> 0 ->
  (forall i : nat, native w (native_calls w + i) = EBUSY) ->
  (forall i : nat, clock_failure w (clock_reads w + i) = None) ->
  (forall i : nat, clock w (clock_reads w + S i) < finish) ->
  (fst (TryLockReadFor EBUSY fuel timespan w) = None /\
   native_calls (snd (TryLockReadFor EBUSY fuel timespan w))
   = (native_calls w + S fuel)%nat) /\
  (fst (TryLockWriteFor EBUSY fuel timespan w) = None /\
   native_calls (snd (TryLockWriteFor EBUSY fuel timespan w))
   = (native_calls w + S fuel)%nat).
Proof.
  intros finish Hbusy Hheld Havail Hclock. split.
  - rewrite RWLockFacts.TryLockReadFor_policy.
    destruct (policy_spins
                (try_outcome EBUSY "Failed to try lock for read!")
                EvTryRdLock (TryLockRead EBUSY) (TryLockRead_native EBUSY)
                fuel timespan w) as [events Heq]; try assumption.
    + intros i. rewrite Hheld. now apply try_outcome_busy.
    + rewrite Heq. now cbn.
  - rewrite RWLockFacts.TryLockWriteFor_policy.
    destruct (policy_spins
                (try_outcome EBUSY "Failed to try lock for write!")
                EvTryWrLock (TryLockWrite EBUSY) (TryLockWrite_native EBUSY)
                fuel timespan w) as [events Heq]; try assumption.
    + intros i. rewrite Hheld. now apply try_outcome_busy.
    + rewrite Heq. now cbn.
Qed.

Lemma timed_acquire_spins_witness :
  let w := scripted [100] [] in
  16 <> 0 /\
  fst (TryLockWriteFor 16 9 50 w) = None /\
  native_calls (snd (TryLockWriteFor 16 9 50 w)) = 10%nat.
Proof.
  cbv zeta. split; [discriminate | ].
  pose proof (timed_acquire_spins 16 9 50 (scripted [100] [])) as H.
  cbv zeta in H. destruct H as [_ H].
  - discriminate.
  - intros i. cbn. now destruct i.
  - intros i. reflexivity.
  - intros i. cbn. destruct i; reflexivity.
  - exact H.
Defined.

End RWLockRunFacts.

(** * Construction, move and destruction of the lock *)

Module LifecycleFacts.
Import Lifecycle.

Lemma pimpl_with_objects (h : Heap) (objs : nat -> option (option nat))
    (this : nat) (value : option (option nat)) (i : nat) :
  pimpl (with_objects h (set_object objs this value)) i
  = if Nat.eqb i this
    then match value with Some p => p | None => None end
    else match objs i with Some p => p | None => None end.
Proof.
  unfold pimpl, with_objects, set_object. cbn [objects].
  now destruct (Nat.eqb i this).
Qed.

Lemma NoDup_remove_nat (x : nat) (l : list nat) :
  NoDup l -> NoDup (List.remove Nat.eq_dec x l).
Proof.
  induction 1 as [ | y l Hy Hl IH]; cbn; [constructor | ].
  destruct (Nat.eq_dec x y); [exact IH | ].
  constructor; [ | exact IH].
  intros Hin. apply in_remove in Hin. tauto.
Qed.

(** Deleting the [Impl] that one object holds, after the object has let
    go of it, keeps unique ownership. *)
Lemma delete_Impl_keeps_ownership (q : nat) (h h' : Heap) :
  (forall (i p : nat), pimpl h i = Some p -> In p (live h) /\ p <> q) ->
  (forall (i j p : nat), pimpl h i = Some p -> pimpl h j = Some p -> i = j) ->
  (forall p : nat,
     In p (live h) -> p <> q -> exists i : nat, pimpl h i = Some p) ->
  NoDup (live h) ->
  (forall p : nat, In p (live h) -> (p < next_impl h)%nat) ->
  delete_Impl q h = (Returned tt, h') ->
  unique_ownership h' /\
  live h' = List.remove Nat.eq_dec q (live h) /\
  destroy_calls h' = S (destroy_calls h) /\
  init_calls h' = init_calls h /\
  (forall i : nat, objects h' i = objects h i).
Proof.
  intros Hlive Huniq Hown Hnodup Hnext. unfold delete_Impl.
  destruct (negb (destroy_results h (destroy_calls h) =? 0));
    [discriminate | ].
  intros [= <-]. cbn [live destroy_calls init_calls objects].
  split; [ | now repeat split].
  unfold unique_ownership, pimpl. cbn [objects live next_impl].
  fold (pimpl h). repeat split.
  - intros i p Hp. destruct (Hlive i p Hp) as [Hin Hne].
    now apply in_in_remove.
  - exact Huniq.
  - intros p Hin. apply in_remove in Hin. destruct Hin as [Hin Hne].
    now apply Hown.
  - now apply NoDup_remove_nat.
  - intros p Hin. apply in_remove in Hin. apply Hnext. tauto.
Qed.

Lemma pimpl_set (h h0 : Heap) (this : nat) (value : option (option nat))
    (i : nat) :
  pimpl (with_objects h (set_object (objects h0) this value)) i
  = if Nat.eqb i this
    then match value with Some p => p | None => None end
    else pimpl h0 i.
Proof. apply pimpl_with_objects. Qed.

Lemma alive_pimpl (h : Heap) (i p : nat) : pimpl h i = Some p -> alive h i.
Proof.
  unfold pimpl, alive. destruct (objects h i); [discriminate | ].
  discriminate.
Qed.

Ltac pimpl_cases :=
  repeat match goal with
    | H : context [pimpl (with_objects _ (set_object (objects _) _ _)) _]
      |- _ => rewrite pimpl_set in H
    | |- context [pimpl (with_objects _ (set_object (objects _) _ _)) _] =>
        rewrite pimpl_set
    | H : context [Nat.eqb ?a ?b] |- _ => destruct (Nat.eqb_spec a b)
    | |- context [Nat.eqb ?a ?b] => destruct (Nat.eqb_spec a b)
    end.

Lemma two_locks_unique_ownership : unique_ownership two_locks.
Proof.
  unfold unique_ownership, two_locks, pimpl. cbn [objects live next_impl].
  refine (conj _ (conj _ (conj _ (conj _ _)))).
  - intros [ | [ | i]] p [= <-]; cbn; auto.
  - intros [ | [ | i]] [ | [ | j]] p; try discriminate; congruence.
  - intros p [<- | [<- | []]];
      [exists 1%nat; reflexivity | exists 0%nat; reflexivity].
  - repeat constructor; cbn; intuition discriminate.
  - intros p [<- | [<- | []]]; lia.
Qed.

(** The destructor destroys the native lock of the object exactly once.
    Under unique ownership, destroying a lock object deletes the [Impl] it
    holds with one call of [pthread_rwlock_destroy], after which that
    [Impl] is no longer live and no other object held it; for an object
    that was moved from it makes no native call.  It never throws: a
    failing destroy ends the process.  Unique ownership holds
    afterwards. *)
Theorem RWLock_dtor_destroys_once (this : nat) (h : Heap) :
  unique_ownership h ->
  alive h this ->
  match RWLock_dtor this h with
  | (Returned _, h') =>
      unique_ownership h' /\ ~ alive h' this /\
      (forall i : nat, i <> this -> objects h' i = objects h i) /\
      init_calls h' = init_calls h /\
      match pimpl h this with
      | Some q =>
          In q (live h) /\ ~ In q (live h') /\
          live h' = List.remove Nat.eq_dec q (live h) /\
          destroy_calls h' = S (destroy_calls h) /\
          forall i : nat, pimpl h' i <> Some q
      | None => live h' = live h /\ destroy_calls h' = destroy_calls h
      end
  | (Thrown _, _) => False
  | (Aborted e, _) =>
      exists (q : nat) (code : Z),
        pimpl h this = Some q /\ code <> 0 /\
        e = SystemException "Failed to destroy a read/write lock!"
              (Some code)
  end.
Proof.
  intros (Hlive & Huniq & Hown & Hnodup & Hnext) Halive.
  unfold RWLock_dtor.
  set (h1 := with_objects h (set_object (objects h) this None)).
  destruct (pimpl h this) as [q | ] eqn:Hq.
  - destruct (delete_Impl q h1) as [[[] | e | e] h'] eqn:Hdel.
    + destruct (delete_Impl_keeps_ownership q h1 h') as
        (Hinv & Hl & Hd & Hi & Hobjs); try exact Hdel.
      * intros i p Hp. subst h1. pimpl_cases; [discriminate | ].
        split; [now apply (Hlive i) | ].
        intros ->. apply n. now apply (Huniq i this q).
      * intros i j p Hi Hj. subst h1. pimpl_cases; try discriminate.
        now apply (Huniq i j p).
      * intros p Hin Hne. destruct (Hown p Hin) as [i Hi].
        exists i. subst h1. pimpl_cases; [ | exact Hi].
        subst i. congruence.
      * exact Hnodup.
      * exact Hnext.
      * split; [exact Hinv | ].
        split.
        { unfold alive. rewrite Hobjs. subst h1. cbn [objects with_objects].
          unfold set_object. rewrite Nat.eqb_refl. tauto. }
        split.
        { intros i Hi'. rewrite Hobjs. subst h1. cbn [objects with_objects].
          unfold set_object. now destruct (Nat.eqb_spec i this). }
        split; [exact Hi | ].
        split; [now apply (Hlive this) | ].
        split; [rewrite Hl; apply remove_In | ].
        split; [exact Hl | ]. split; [exact Hd | ].
        intros i Hi'. destruct Hinv as (Hlive' & _).
        apply Hlive' in Hi'. rewrite Hl in Hi'.
        now apply remove_In in Hi'.
    + unfold delete_Impl in Hdel.
      destruct (negb (destroy_results h1 (destroy_calls h1) =? 0));
        discriminate.
    + unfold delete_Impl in Hdel.
      destruct (Z.eqb_spec (destroy_results h1 (destroy_calls h1)) 0);
        cbn [negb] in Hdel; [discriminate | ].
      injection Hdel as <- _. eauto.
  - split.
    { unfold unique_ownership. subst h1. cbn [live next_impl with_objects].
      repeat split.
      - intros i p Hp. pimpl_cases; [discriminate | ]. now apply (Hlive i).
      - intros i j p Hi Hj. pimpl_cases; try discriminate.
        now apply (Huniq i j p).
      - intros p Hin. destruct (Hown p Hin) as [i Hi].
        exists i. pimpl_cases; [ | exact Hi]. subst i. congruence.
      - exact Hnodup.
      - exact Hnext. }
    split.
    { unfold alive. subst h1. cbn [objects with_objects].
      unfold set_object. rewrite Nat.eqb_refl. tauto. }
    split.
    { intros i Hi'. subst h1. cbn [objects with_objects].
      unfold set_object. now destruct (Nat.eqb_spec i this). }
    now repeat split.
Qed.

Lemma RWLock_dtor_destroys_once_witness :
  unique_ownership two_locks /\ alive two_locks 0 /\
  unique_ownership (snd (RWLock_dtor 0 two_locks)) /\
  ~ alive (snd (RWLock_dtor 0 two_locks)) 0.
Proof.
  split; [exact two_locks_unique_ownership | ].
  assert (Halive : alive two_locks 0) by discriminate.
  split; [exact Halive | ].
  pose proof (RWLock_dtor_destroys_once 0 two_locks
                two_locks_unique_ownership Halive) as H.
  destruct (RWLock_dtor 0 two_locks) as [[[] | e | e] h'] eqn:E.
  - cbn [snd]. split; apply H.
  - destruct H.
  - vm_compute in E. discriminate E.
Defined.

(** The constructor makes a lock that nothing else holds, or nothing at
    all.  Constructing an object where there is none makes one call of
    [pthread_rwlock_init]; when it succeeds the object holds a new [Impl],
    live and held by no other object, and unique ownership is kept; when it
    fails the constructor throws the [SystemException] of that result and
    leaves no object and no [Impl] behind.  It never ends the process. *)
Theorem RWLock_ctor_fresh_or_nothing (this : nat) (h : Heap) :
  unique_ownership h ->
  ~ alive h this ->
  init_calls (snd (RWLock_ctor this h)) = S (init_calls h) /\
  destroy_calls (snd (RWLock_ctor this h)) = destroy_calls h /\
  match RWLock_ctor this h with
  | (Returned _, h') =>
      init_results h (init_calls h) = 0 /\
      unique_ownership h' /\
      (forall i : nat, i <> this -> objects h' i = objects h i) /\
      exists p : nat,
        pimpl h' this = Some p /\ ~ In p (live h) /\
        live h' = p :: live h /\
        forall i : nat, pimpl h i <> Some p
  | (Thrown e, h') =>
      init_results h (init_calls h) <> 0 /\
      e = SystemException "Failed to initialize a read/write lock!"
            (Some (init_results h (init_calls h))) /\
      unique_ownership h' /\ ~ alive h' this /\
      live h' = live h /\ objects h' = objects h
  | (Aborted _, _) => False
  end.
Proof.
  intros (Hlive & Huniq & Hown & Hnodup & Hnext) Hfresh.
  assert (Hnone : pimpl h this = None).
  { unfold pimpl, alive in *. destruct (objects h this); [ | reflexivity].
    elim Hfresh. discriminate. }
  assert (Hnew : ~ In (next_impl h) (live h)).
  { intros Hin. apply Hnext in Hin. lia. }
  unfold RWLock_ctor, make_unique_Impl.
  destruct (Z.eqb_spec (init_results h (init_calls h)) 0) as [H0 | H0];
    cbn [negb fst snd init_calls destroy_calls with_objects].
  - split; [reflexivity | ]. split; [reflexivity | ].
    split; [exact H0 | ].
    cbn [objects].
    split.
    { unfold unique_ownership.
      refine (conj _ (conj _ (conj _ (conj _ _)))).
      - intros i p Hp. pimpl_cases; cbn [live with_objects].
        + left. congruence.
        + right. now apply (Hlive i).
      - intros i j p Hi Hj. pimpl_cases; try congruence.
        + elim Hnew. apply (Hlive i). congruence.
        + elim Hnew. apply (Hlive j). congruence.
        + now apply (Huniq i j p).
      - cbn [live with_objects]. intros p [<- | Hin].
        + exists this. pimpl_cases; [reflexivity | congruence].
        + destruct (Hown p Hin) as [i Hi]. exists i.
          pimpl_cases; [ | exact Hi]. subst i. congruence.
      - cbn [live with_objects]. now constructor.
      - cbn [live next_impl with_objects].
        intros p [<- | Hin]; [lia | ]. apply Hnext in Hin. lia. }
    split.
    { intros i Hi. cbn [objects with_objects]. unfold set_object.
      now destruct (Nat.eqb_spec i this). }
    exists (next_impl h).
    split; [pimpl_cases; [reflexivity | congruence] | ].
    cbn [live with_objects].
    split; [exact Hnew | ]. split; [reflexivity | ].
    intros i Hi. apply Hnew. now apply (Hlive i).
  - split; [reflexivity | ]. split; [reflexivity | ].
    now repeat split.
Qed.

Lemma RWLock_ctor_fresh_or_nothing_witness :
  unique_ownership two_locks /\ ~ alive two_locks 2 /\
  init_calls (snd (RWLock_ctor 2 two_locks)) = 3%nat /\
  destroy_calls (snd (RWLock_ctor 2 two_locks)) = 0%nat.
Proof.
  split; [exact two_locks_unique_ownership | ].
  assert (Hfresh : ~ alive two_locks 2) by (intros H; now apply H).
  split; [exact Hfresh | ].
  pose proof (RWLock_ctor_fresh_or_nothing 2 two_locks
                two_locks_unique_ownership Hfresh) as H.
  split; apply H.
Defined.

(** Move construction hands the lock over.  Under unique ownership,
    constructing an object from an existing one makes no native call,
    leaves the new object with the pointer the old one held and the old
    one with a null pointer, and keeps unique ownership: the [Impl] is
    still held by exactly one object. *)
Theorem RWLock_move_ctor_transfers (this lock : nat) (h : Heap) :
  unique_ownership h ->
  alive h lock ->
  ~ alive h this ->
  let h' := RWLock_move_ctor this lock h in
  unique_ownership h' /\
  pimpl h' this = pimpl h lock /\
  pimpl h' lock = None /\
  alive h' this /\ alive h' lock /\
  (forall i : nat, i <> this -> i <> lock -> objects h' i = objects h i) /\
  live h' = live h /\
  init_calls h' = init_calls h /\
  destroy_calls h' = destroy_calls h.
Proof.
  intros (Hlive & Huniq & Hown & Hnodup & Hnext) Halive Hfresh h'.
  assert (Hne : this <> lock) by (intros ->; contradiction).
  assert (Hnone : pimpl h this = None).
  { unfold pimpl, alive in *. destruct (objects h this); [ | reflexivity].
    elim Hfresh. discriminate. }
  subst h'. unfold RWLock_move_ctor. cbv zeta.
  split.
  { unfold unique_ownership. cbn [live next_impl with_objects].
    repeat split.
    - intros i p Hp. pimpl_cases; try discriminate.
      + now apply (Hlive lock).
      + now apply (Hlive i).
    - intros i j p Hi Hj. pimpl_cases; try discriminate; try congruence;
        pose proof (Huniq _ _ _ Hi Hj) as Heq; congruence.
    - intros p Hin. destruct (Hown p Hin) as [i Hi].
      destruct (Nat.eq_dec i lock) as [-> | Hil].
      + exists this. pimpl_cases; congruence.
      + exists i. pimpl_cases; congruence.
    - exact Hnodup.
    - exact Hnext. }
  split; [pimpl_cases; congruence | ].
  split; [pimpl_cases; congruence | ].
  split.
  { unfold alive. cbn [objects with_objects]. unfold set_object.
    rewrite Nat.eqb_refl. discriminate. }
  split.
  { unfold alive. cbn [objects with_objects]. unfold set_object.
    destruct (Nat.eqb_spec lock this); [congruence | ].
    rewrite Nat.eqb_refl. discriminate. }
  split.
  { intros i Hi Hi'. cbn [objects with_objects]. unfold set_object.
    destruct (Nat.eqb_spec i this); [contradiction | ].
    now destruct (Nat.eqb_spec i lock). }
  now repeat split.
Qed.

Lemma RWLock_move_ctor_transfers_witness :
  unique_ownership two_locks /\ alive two_locks 0 /\ ~ alive two_locks 2 /\
  unique_ownership (RWLock_move_ctor 2 0 two_locks) /\
  pimpl (RWLock_move_ctor 2 0 two_locks) 2 = pimpl two_locks 0.
Proof.
  split; [exact two_locks_unique_ownership | ].
  assert (Halive : alive two_locks 0) by discriminate.
  assert (Hfresh : ~ alive two_locks 2) by (intros H; now apply H).
  split; [exact Halive | ]. split; [exact Hfresh | ].
  pose proof (RWLock_move_ctor_transfers 2 0 two_locks
                two_locks_unique_ownership Halive Hfresh) as H.
  cbv zeta in H. split; apply H.
Defined.

(** Move assignment releases what the target held and takes what the source
    gives up.  Under unique ownership, assigning one lock object to a
    different one leaves the target with the pointer the source held and the
    source with a null pointer, and deletes the [Impl] the target held
    before, if any, with exactly one call of [pthread_rwlock_destroy];
    assigning an object to itself changes nothing and makes no native call.
    The operator never throws (a failing destroy ends the process) and
    keeps unique ownership. *)
Theorem RWLock_move_assign_releases_old (this lock : nat) (h : Heap) :
  unique_ownership h ->
  alive h this ->
  alive h lock ->
  match RWLock_move_assign this lock h with
  | (Returned _, h') =>
      unique_ownership h' /\
      alive h' this /\ alive h' lock /\
      init_calls h' = init_calls h /\
      (forall i : nat, i <> this -> i <> lock -> objects h' i = objects h i) /\
      (this = lock ->
       (forall i : nat, objects h' i = objects h i) /\
       live h' = live h /\ destroy_calls h' = destroy_calls h) /\
      (this <> lock ->
       pimpl h' this = pimpl h lock /\ pimpl h' lock = None /\
       match pimpl h this with
       | Some q =>
           ~ In q (live h') /\
           live h' = List.remove Nat.eq_dec q (live h) /\
           destroy_calls h' = S (destroy_calls h) /\
           forall i : nat, pimpl h' i <> Some q
       | None => live h' = live h /\ destroy_calls h' = destroy_calls h
       end)
  | (Thrown _, _) => False
  | (Aborted e, _) =>
      this <> lock /\
      exists (q : nat) (code : Z),
        pimpl h this = Some q /\ code <> 0 /\
        e = SystemException "Failed to destroy a read/write lock!"
              (Some code)
  end.
Proof.
  intros (Hlive & Huniq & Hown & Hnodup & Hnext) Hthis Hlock.
  unfold RWLock_move_assign.
  set (h1 := with_objects h (set_object (objects h) lock (Some None))).
  set (h2 := with_objects h1
               (set_object (objects h1) this (Some (pimpl h lock)))).
  assert (Hobj2 : forall i : nat,
            objects h2 i
            = if Nat.eqb i this then Some (pimpl h lock)
              else if Nat.eqb i lock then Some None else objects h i).
  { intros i. reflexivity. }
  assert (Hp2 : forall i : nat,
            pimpl h2 i
            = if Nat.eqb i this then pimpl h lock
              else if Nat.eqb i lock then None else pimpl h i).
  { intros i. unfold pimpl at 1. rewrite Hobj2. unfold pimpl.
    destruct (Nat.eqb i this); [reflexivity | ].
    now destruct (Nat.eqb i lock). }
  assert (Hp1 : pimpl h1 this
                = if Nat.eqb this lock then None else pimpl h this).
  { subst h1. now rewrite pimpl_set. }
  assert (Halive2 : alive h2 this /\ alive h2 lock).
  { unfold alive. rewrite !Hobj2, !Nat.eqb_refl.
    split; [discriminate | ].
    destruct (Nat.eqb lock this); discriminate. }
  assert (Hrest : forall i : nat,
            i <> this -> i <> lock -> objects h2 i = objects h i).
  { intros i Hi Hi'. rewrite Hobj2.
    destruct (Nat.eqb_spec i this); [contradiction | ].
    now destruct (Nat.eqb_spec i lock). }
  rewrite Hp1. clear Hp1.
  destruct (Nat.eqb_spec this lock) as [Heq | Hne].
  - (* self-assignment *)
    subst lock.
    assert (Hsame : forall i : nat, pimpl h2 i = pimpl h i).
    { intros i. rewrite Hp2. now destruct (Nat.eqb_spec i this) as [-> | ]. }
    split.
    { unfold unique_ownership.
      change (live h2) with (live h). change (next_impl h2) with (next_impl h).
      refine (conj _ (conj _ (conj _ (conj Hnodup Hnext)))).
      - intros i p. rewrite Hsame. apply Hlive.
      - intros i j p. rewrite !Hsame. apply Huniq.
      - intros p Hin. destruct (Hown p Hin) as [i Hi]. exists i.
        now rewrite Hsame. }
    split; [apply Halive2 | ]. split; [apply Halive2 | ].
    split; [reflexivity | ]. split; [exact Hrest | ].
    split; [ | tauto].
    intros _. split; [ | now split].
    intros i. rewrite Hobj2.
    destruct (Nat.eqb_spec i this) as [-> | ]; [ | reflexivity].
    unfold pimpl, alive in *. destruct (objects h this); tauto.
  - destruct (pimpl h this) as [q | ] eqn:Hq.
    + destruct (delete_Impl q h2) as [[[] | e | e] h'] eqn:Hdel.
      * destruct (delete_Impl_keeps_ownership q h2 h') as
          (Hinv & Hl & Hd & Hi & Hobjs); try exact Hdel.
        { intros i p. rewrite Hp2.
          destruct (Nat.eqb_spec i this) as [-> | Hit].
          - intros Hp. split; [now apply (Hlive lock) | ].
            intros ->. apply Hne. now apply (Huniq this lock q).
          - destruct (Nat.eqb_spec i lock); [discriminate | ].
            intros Hp. split; [now apply (Hlive i) | ].
            intros ->. apply Hit. now apply (Huniq i this q). }
        { intros i j p. rewrite !Hp2.
          destruct (Nat.eqb_spec i this) as [-> | Hit];
            destruct (Nat.eqb_spec j this) as [-> | Hjt];
            try reflexivity;
            try (destruct (Nat.eqb_spec i lock) as [-> | Hil]);
            try (destruct (Nat.eqb_spec j lock) as [-> | Hjl]);
            try discriminate; intros Hpi Hpj;
            pose proof (Huniq _ _ _ Hpi Hpj); congruence. }
        { intros p Hin Hpq. destruct (Hown p Hin) as [i Hi'].
          destruct (Nat.eq_dec i lock) as [-> | Hil].
          - exists this. now rewrite Hp2, Nat.eqb_refl.
          - exists i. rewrite Hp2.
            destruct (Nat.eqb_spec i this) as [-> | Hit]; [congruence | ].
            now destruct (Nat.eqb_spec i lock). }
        { exact Hnodup. }
        { exact Hnext. }
        assert (Hp' : forall i : nat, pimpl h' i = pimpl h2 i).
        { intros i. unfold pimpl. now rewrite Hobjs. }
        split; [exact Hinv | ].
        split; [unfold alive; rewrite Hobjs; apply Halive2 | ].
        split; [unfold alive; rewrite Hobjs; apply Halive2 | ].
        split; [exact Hi | ].
        split; [intros i Hi1 Hi2; rewrite Hobjs; now apply Hrest | ].
        split; [tauto | ].
        intros _.
        split; [now rewrite Hp', Hp2, Nat.eqb_refl | ].
        split.
        { rewrite Hp', Hp2.
          destruct (Nat.eqb_spec lock this); [congruence | ].
          now rewrite Nat.eqb_refl. }
        split; [rewrite Hl; apply remove_In | ].
        split; [exact Hl | ]. split; [exact Hd | ].
        intros i Hi'. destruct Hinv as (Hlive' & _).
        apply Hlive' in Hi'. rewrite Hl in Hi'.
        now apply remove_In in Hi'.
      * unfold delete_Impl in Hdel.
        destruct (negb (destroy_results h2 (destroy_calls h2) =? 0));
          discriminate.
      * unfold delete_Impl in Hdel.
        destruct (Z.eqb_spec (destroy_results h2 (destroy_calls h2)) 0);
          cbn [negb] in Hdel; [discriminate | ].
        injection Hdel as <- _. split; [exact Hne | ]. eauto.
    + split.
      { unfold unique_ownership.
        change (live h2) with (live h).
        change (next_impl h2) with (next_impl h).
        refine (conj _ (conj _ (conj _ (conj Hnodup Hnext)))).
        - intros i p. rewrite Hp2.
          destruct (Nat.eqb_spec i this); [apply Hlive | ].
          destruct (Nat.eqb_spec i lock); [discriminate | apply Hlive].
        - intros i j p. rewrite !Hp2.
          destruct (Nat.eqb_spec i this) as [-> | Hit];
            destruct (Nat.eqb_spec j this) as [-> | Hjt];
            try reflexivity;
            try (destruct (Nat.eqb_spec i lock) as [-> | Hil]);
            try (destruct (Nat.eqb_spec j lock) as [-> | Hjl]);
            try discriminate; intros Hpi Hpj;
            pose proof (Huniq _ _ _ Hpi Hpj); congruence.
        - intros p Hin. destruct (Hown p Hin) as [i Hi'].
          destruct (Nat.eq_dec i lock) as [-> | Hil].
          + exists this. now rewrite Hp2, Nat.eqb_refl.
          + exists i. rewrite Hp2.
            destruct (Nat.eqb_spec i this) as [-> | Hit]; [congruence | ].
            now destruct (Nat.eqb_spec i lock). }
      split; [apply Halive2 | ]. split; [apply Halive2 | ].
      split; [reflexivity | ]. split; [exact Hrest | ].
      split; [tauto | ].
      intros _.
      split; [now rewrite Hp2, Nat.eqb_refl | ].
      split; [ | now split].
      rewrite Hp2. destruct (Nat.eqb_spec lock this); [congruence | ].
      now rewrite Nat.eqb_refl.
Qed.

Lemma RWLock_move_assign_releases_old_witness :
  unique_ownership two_locks /\ alive two_locks 0 /\ alive two_locks 1 /\
  unique_ownership (snd (RWLock_move_assign 0 1 two_locks)) /\
  init_calls (snd (RWLock_move_assign 0 1 two_locks)) = 2%nat.
Proof.
  split; [exact two_locks_unique_ownership | ].
  assert (Hthis : alive two_locks 0) by discriminate.
  assert (Hlock : alive two_locks 1) by discriminate.
  split; [exact Hthis | ]. split; [exact Hlock | ].
  pose proof (RWLock_move_assign_releases_old 0 1 two_locks
                two_locks_unique_ownership Hthis Hlock) as H.
  destruct (RWLock_move_assign 0 1 two_locks) as [[[] | e | e] h'] eqn:E.
  - cbn [snd]. split; apply H.
  - destruct H.
  - vm_compute in E. discriminate E.
Defined.

End LifecycleFacts.
